(** * PDFScramble: page classification, key ordering and move-list reordering

    A shallow embedding of [scrambler.py] (class [Scrambler]) and of
    [manual_scrambler.py] (class [ManualScrambler]).

    - Python [int] is [Z]; [float("inf")] in a sort key is the constructor
      [Inf] of [num].
    - Python [str] is [string]; the regular expressions are run over the
      list of its characters.  Texts are ASCII: [\d] is [0-9] and [\W] is
      everything but [A-Za-z0-9_].  On other texts Python's classes are
      wider, and the statements on what the label pattern finds carry
      [ascii_only].
    - A JSON object is the list of its [(key, value)] items in file order,
      which is the order [dict.items()] iterates in.  Its values are the
      ones that the two mappings are documented to hold, numbers and
      strings; [json.load] can give others (null, booleans, floats, lists,
      objects), on which [int()] raises [TypeError] or reads a number, and
      which the statements below do not range over.
    - The document is the list of what [page.get_text()] returns for each
      page, in page order; [page.number] is the position in that list.
    - The OCR engine is what it gives for each page: the text that it
      reads in the bottom fifth of the page, or the exception that the
      call ends with.
    - Reading and writing files is left out: the JSON mappings are given
      as read, no log is written, and a run ends with the page numbers
      that the code hands to [insert_pdf], in their order.
    - An exception is the [Raise] outcome of the error monad [result]. *)

From Stdlib Require Import Strings.String Strings.Ascii.
From Stdlib Require Import ZArith List Bool Lia Permutation Sorted.
Import ListNotations.
Local Open Scope Z_scope.

Set Implicit Arguments.

(** ** Python primitives *)

Module Py.

Inductive exn : Type :=
| ValueError
| TypeError
| OSError
| RuntimeError.

Inductive result (A : Type) : Type :=
| Ok (a : A)
| Raise (e : exn).

Arguments Ok {A} a.
Arguments Raise {A} e.

Definition bind {A B : Type} (r : result A) (k : A -> result B) : result B :=
  match r with
  | Ok a => k a
  | Raise e => Raise e
  end.

Notation "x <- r ;; k" := (bind r (fun x => k))
  (at level 61, r at next level, right associativity).

(** *** Characters *)

Definition code (c : ascii) : Z := Z.of_N (N_of_ascii c).

Definition is_digit (c : ascii) : bool := (48 <=? code c) && (code c <=? 57).

Definition is_alpha (c : ascii) : bool :=
  ((65 <=? code c) && (code c <=? 90)) || ((97 <=? code c) && (code c <=? 122)).

(** [\w]: a letter, a digit or the underscore; [\W] is its complement. *)
Definition is_word (c : ascii) : bool :=
  is_alpha c || is_digit c || (code c =? 95).

Definition is_nonword (c : ascii) : bool := negb (is_word c).

(** What [int()] skips around an ASCII number: tab to carriage return,
    and the space. *)
Definition is_space (c : ascii) : bool :=
  ((9 <=? code c) && (code c <=? 13)) || (code c =? 32).

Definition digit_val (c : ascii) : Z := code c - 48.

(** *** Lists of characters *)

Fixpoint span {A : Type} (p : A -> bool) (l : list A) : list A * list A :=
  match l with
  | [] => ([], [])
  | x :: l' =>
      if p x then let (a, b) := span p l' in (x :: a, b) else ([], l)
  end.

Fixpoint dropwhile {A : Type} (p : A -> bool) (l : list A) : list A :=
  match l with
  | [] => []
  | x :: l' => if p x then dropwhile p l' else l
  end.

Definition strip (s : list ascii) : list ascii :=
  rev (dropwhile is_space (rev (dropwhile is_space s))).

(** *** [int(s)] for a string

    Base ten: optional white space around, an optional sign, then digits
    in which single underscores may separate two digits.  A string with
    more digits than [sys.int_info.default_max_str_digits] is refused. *)

Definition max_str_digits : Z := 4300.

Fixpoint int_body (acc : Z) (after_digit : bool) (s : list ascii) : option Z :=
  match s with
  | [] => if after_digit then Some acc else None
  | c :: s' =>
      if is_digit c then int_body (10 * acc + digit_val c) true s'
      else if (code c =? 95) && after_digit then int_body acc false s'
      else None
  end.

Definition int_chars (s : list ascii) : result Z :=
  let r :=
    match strip s with
    | c :: s' =>
        if code c =? 43 then int_body 0 false s'
        else if code c =? 45 then option_map Z.opp (int_body 0 false s')
        else int_body 0 false (c :: s')
    | [] => None
    end in
  match r with
  | Some z =>
      if max_str_digits <? Z.of_nat (length (filter is_digit s))
      then Raise ValueError
      else Ok z
  | None => Raise ValueError
  end.

Definition int_str (s : string) : result Z :=
  int_chars (list_ascii_of_string s).

(** *** List operations on indices *)

(** [l.index(x)]: the first position of [x]; [None] stands for the
    [ValueError] that the call sites either guard against or catch. *)
Fixpoint index (l : list Z) (x : Z) : option nat :=
  match l with
  | [] => None
  | y :: l' =>
      if y =? x then Some O
      else match index l' x with
           | Some i => Some (S i)
           | None => None
           end
  end.

(** [l.pop(i)] for a position inside the list, keeping only the list. *)
Fixpoint pop (l : list Z) (i : nat) : list Z :=
  match l, i with
  | [], _ => []
  | _ :: l', O => l'
  | y :: l', S i' => y :: pop l' i'
  end.

(** [l.insert(i, x)]: a negative [i] counts from the end, and the position
    is clamped to the list. *)
Definition insert (l : list Z) (i : Z) (x : Z) : list Z :=
  let n := Z.of_nat (length l) in
  let i1 := if i <? 0 then Z.max 0 (i + n) else Z.min i n in
  firstn (Z.to_nat i1) l ++ x :: skipn (Z.to_nat i1) l.

(** [list(range(a, b))]. *)
Definition range (a b : Z) : list Z :=
  map (fun k => a + Z.of_nat k) (seq 0 (Z.to_nat (b - a))).

(** *** [sorted(l, key=...)]

    Python's sort is stable and only asks whether one key is less than
    another.  Insertion from the right gives the same list: an element
    goes in front of the first later element whose key is not smaller. *)

Section Sorted.
Variables (A K : Type) (ltb : K -> K -> bool) (key : A -> K).

Fixpoint insert_by (x : A) (l : list A) : list A :=
  match l with
  | [] => [x]
  | y :: l' =>
      if ltb (key y) (key x) then y :: insert_by x l' else x :: y :: l'
  end.

Definition sorted (l : list A) : list A := fold_right insert_by [] l.

End Sorted.

(** [l[-1]] of a list known to be non-empty; [None] on the empty list. *)
Fixpoint last_opt {A : Type} (l : list A) : option A :=
  match l with
  | [] => None
  | [x] => Some x
  | _ :: l' => last_opt l'
  end.

(** *** Numbers in sort keys: an [int] or [float("inf")] *)

Inductive num : Type :=
| Int (z : Z)
| Inf.

Definition num_eqb (a b : num) : bool :=
  match a, b with
  | Int x, Int y => x =? y
  | Inf, Inf => true
  | _, _ => false
  end.

Definition num_ltb (a b : num) : bool :=
  match a, b with
  | Int x, Int y => x <? y
  | Int _, Inf => true
  | Inf, _ => false
  end.

(** *** JSON scalars that the two mappings are documented to hold: a
    number or a string *)

Inductive jval : Type :=
| JInt (z : Z)
| JStr (s : string).

(** [int(v)] for such a value. *)
Definition int_jval (v : jval) : result Z :=
  match v with
  | JInt z => Ok z
  | JStr s => int_str s
  end.

End Py.

(** ** Regular expressions

    What [re] does with the two patterns of [scrambler.py]: a backtracking
    matcher that tries the alternatives of [|] from left to right and lets
    [*] and [+] take as many characters as they can before it gives some
    back.  A pattern is built from character classes ([\d], [\W], a
    literal character), [*] on a class, sequence, [|] and groups. *)

Module Re.
Import Py.

Inductive regex : Type :=
| Class (p : ascii -> bool)
| Star (p : ascii -> bool)
| Cat (r1 r2 : regex)
| Alt (r1 r2 : regex)
| Group (r : regex).

(** [c+] for a class [c]. *)
Definition Plus (p : ascii -> bool) : regex := Cat (Class p) (Star p).

(** The class of one literal character. *)
Definition lit (c : ascii) : ascii -> bool := Ascii.eqb c.

(** What the groups have matched so far, in the order in which they were
    closed; and the outcome of a match: the groups and the rest of the
    text. *)
Definition captures : Type := list (list ascii).
Definition found : Type := (captures * list ascii)%type.
Definition cont : Type := list ascii -> captures -> option found.

(** [p*] followed by [k]: the longest run first, then one character
    less, and so on down to the empty run. *)
Fixpoint star (p : ascii -> bool) (s : list ascii)
  (k : list ascii -> option found) : option found :=
  match s with
  | c :: s' =>
      if p c then
        match star p s' k with
        | Some r => Some r
        | None => k s
        end
      else k s
  | [] => k s
  end.

(** [r] at the head of [s], followed by [k]. *)
Fixpoint run (r : regex) (s : list ascii) (caps : captures) (k : cont)
  : option found :=
  match r with
  | Class p =>
      match s with
      | c :: s' => if p c then k s' caps else None
      | [] => None
      end
  | Star p => star p s (fun s' => k s' caps)
  | Cat r1 r2 => run r1 s caps (fun s1 caps1 => run r2 s1 caps1 k)
  | Alt r1 r2 =>
      match run r1 s caps k with
      | Some x => Some x
      | None => run r2 s caps k
      end
  | Group r1 =>
      run r1 s caps
        (fun s' caps' => k s' (caps' ++ [firstn (length s - length s') s]))
  end.

(** The end of the pattern. *)
Definition accept : cont := fun rest caps => Some (caps, rest).

(** [(\d+|S|\$)\W*\-\W*(\d+)\W*] in [_create_initial_page_list] and
    [(\d+|S)\W*\-\W*(\d+)\W*] in [_ocr_failed_pages]; [dollar] tells the
    two apart. *)
Definition label_pattern (dollar : bool) : regex :=
  let chapter :=
    if dollar
    then Alt (Plus is_digit) (Alt (Class (lit "S")) (Class (lit "$")))
    else Alt (Plus is_digit) (Class (lit "S")) in
  Cat (Group chapter)
    (Cat (Star is_nonword)
       (Cat (Class (lit "-"))
          (Cat (Star is_nonword)
             (Cat (Group (Plus is_digit)) (Star is_nonword))))).

(** One match at the head of [s]: the two groups and the number of
    characters matched. *)
Definition match_label (dollar : bool) (s : list ascii)
  : option ((string * string) * nat) :=
  match run (label_pattern dollar) s [] accept with
  | Some ([first; second], rest) =>
      Some ((string_of_list_ascii first, string_of_list_ascii second),
            (length s - length rest)%nat)
  | _ => None
  end.

(** [findall]: matches are looked for from left to right and do not
    overlap; [skip] counts the characters of the last match that are still
    to be passed over. *)
Fixpoint findall_from (dollar : bool) (skip : nat) (s : list ascii)
  : list (string * string) :=
  match s with
  | [] => []
  | _ :: s' =>
      match skip with
      | S k => findall_from dollar k s'
      | O =>
          match match_label dollar s with
          | Some (groups, n) => groups :: findall_from dollar (n - 1) s'
          | None => findall_from dollar 0 s'
          end
      end
  end.

Definition findall (dollar : bool) (text : string) : list (string * string) :=
  findall_from dollar 0 (list_ascii_of_string text).

End Re.

(** ** scrambler.py *)

Module Scrambler.
Import Py.

(** [chapter: int | Literal['S']] *)
Inductive chapter_t : Type :=
| ChInt (z : Z)
| ChS.

Record Page : Type := mkPage {
  index : Z;
  failed : bool;
  chapter : chapter_t;
  chapter_page : Z
}.

(** What [page.get_text()] returns: a [str], or something else. *)
Inductive page_text : Type :=
| Text (s : string)
| NotText.

(** The body of the loop of [_create_initial_page_list] once the text is
    known to be a string: the page to append. *)
Definition initial_page (i : Z) (text : string) : result Page :=
  let res := Re.findall true text in
  match last_opt res with
  | None => Ok (mkPage i true (ChInt 0) 0)
  | Some (first, second) =>
      chapter <- (if String.eqb first "S" || String.eqb first "$"
                  then Ok ChS
                  else z <- int_str first ;; Ok (ChInt z)) ;;
      chapter_page <- int_str second ;;
      Ok (mkPage i false chapter chapter_page)
  end.

(** The loop over [self.doc]: [i] is [page.number] of the first page of
    [doc], [init_pages] is [self.init_pages] so far. *)
Fixpoint create_loop (i : Z) (doc : list page_text) (init_pages : list Page)
  : result (list Page) :=
  match doc with
  | [] => Ok init_pages
  | NotText :: doc' => create_loop (i + 1) doc' init_pages
  | Text text :: doc' =>
      page_el <- initial_page i text ;;
      create_loop (i + 1) doc' (init_pages ++ [page_el])
  end.

Definition _create_initial_page_list (doc : list page_text)
  : result (list Page) :=
  create_loop 0 doc [].

(** One round of the loop of [_ocr_failed_pages]: what [self.init_pages[idx]]
    holds afterwards.  [ocr i] is the outcome of rendering the bottom fifth
    of page [i] and of [pytesseract.image_to_string] on it: the text read,
    or the exception raised. *)
Definition ocr_page (ocr : Z -> result string) (page_el : Page)
  : result Page :=
  if negb (failed page_el) then Ok page_el
  else
    text <- ocr (index page_el) ;;
    let res := Re.findall false text in
    match last_opt res with
    | Some (first, second) =>
        chapter <- (if String.eqb first "S"
                    then Ok ChS
                    else z <- int_str first ;; Ok (ChInt z)) ;;
        chapter_page <- int_str second ;;
        Ok (mkPage (index page_el) false chapter chapter_page)
    | None => Ok page_el
    end.

Fixpoint ocr_loop (ocr : Z -> result string) (init_pages : list Page)
  : result (list Page) :=
  match init_pages with
  | [] => Ok []
  | page_el :: rest =>
      p <- ocr_page ocr page_el ;;
      rest' <- ocr_loop ocr rest ;;
      Ok (p :: rest')
  end.

Definition _ocr_failed_pages (HAS_OCR : bool) (ocr : Z -> result string)
  (init_pages : list Page) : result (list Page) :=
  if negb HAS_OCR then Ok init_pages else ocr_loop ocr init_pages.

(** [_manual_page_adjustments].  An item of the JSON object is a key and
    the pair [[chapter, chapter_page]]; [chapter_page] is stored as it is. *)

Definition adjustment : Type := (string * (jval * Z))%type.

(** The inner loop: replace the first page whose [index] is
    [page_index], then [break]. *)
Fixpoint update_page (init_pages : list Page) (page_index : Z) (new : Page)
  : list Page :=
  match init_pages with
  | [] => []
  | page_el :: rest =>
      if index page_el =? page_index then new :: rest
      else page_el :: update_page rest page_index new
  end.

(** "Convert chapter to proper type": [chapter] is [value[0]]. *)
Definition convert_chapter (chapter : jval) : result chapter_t :=
  match chapter with
  | JStr c =>
      if String.eqb c "S" then Ok ChS
      else z <- int_str c ;; Ok (ChInt z)
  | JInt z => Ok (ChInt z)
  end.

(** One round of the outer loop. *)
Definition adjust_entry (init_pages : list Page) (a : adjustment)
  : result (list Page) :=
  let '(key, (chapter0, chapter_page)) := a in
  k <- int_str key ;;
  let page_index := k - 1 in
  chapter <- convert_chapter chapter0 ;;
  Ok (update_page init_pages page_index
        (mkPage page_index false chapter chapter_page)).

(** The result is [self.init_pages] when the method ends, and the
    exception it ends with, if any. *)
Fixpoint _manual_page_adjustments (adjustments : list adjustment)
  (init_pages : list Page) : list Page * option exn :=
  match adjustments with
  | [] => (init_pages, None)
  | a :: rest =>
      match adjust_entry init_pages a with
      | Ok init_pages' => _manual_page_adjustments rest init_pages'
      | Raise e => (init_pages, Some e)
      end
  end.

(** [_rearrange_page_list] *)

Definition key_t : Type := (Z * num * num * Z)%type.

Definition sort_key (p : Page) : key_t :=
  if failed p then (1, Inf, Inf, index p)
  else
    let chap_key := match chapter p with
                    | ChInt z => Int z
                    | ChS => Inf
                    end in
    (0, chap_key, Int (chapter_page p), index p).

(** [<] on two such tuples: the first components that differ decide. *)
Definition key_ltb (a b : key_t) : bool :=
  let '(a1, a2, a3, a4) := a in
  let '(b1, b2, b3, b4) := b in
  if negb (a1 =? b1) then a1 <? b1
  else if negb (num_eqb a2 b2) then num_ltb a2 b2
  else if negb (num_eqb a3 b3) then num_ltb a3 b3
  else a4 <? b4.

Definition _rearrange_page_list (init_pages : list Page) : list Page :=
  sorted key_ltb sort_key init_pages.

(** [_create_rearranged_pdf]: the page numbers of the source document in
    the order in which they are copied into the new document. *)
Definition _create_rearranged_pdf (sorted_pages : list Page)
  : result (list Z) :=
  match sorted_pages with
  | [] => Raise ValueError
  | _ :: _ => Ok (map index sorted_pages)
  end.

Definition make_new_pdf (doc : list page_text) (HAS_OCR : bool)
  (ocr : Z -> result string) (manual_json : option (list adjustment))
  : result (list Z) :=
  p0 <- _create_initial_page_list doc ;;
  p1 <- _ocr_failed_pages HAS_OCR ocr p0 ;;
  p2 <- match manual_json with
        | Some adjustments =>
            match _manual_page_adjustments adjustments p1 with
            | (p, None) => Ok p
            | (_, Some e) => Raise e
            end
        | None => Ok p1
        end ;;
  _create_rearranged_pdf (_rearrange_page_list p2).

End Scrambler.

(** ** manual_scrambler.py *)

Module ManualScrambler.
Import Py.

(** The loop that normalises [raw.items()] into [moves]. *)
Fixpoint normalize_loop (page_count : Z) (raw : list (string * jval))
  (moves : list (Z * Z)) : result (list (Z * Z)) :=
  match raw with
  | [] => Ok moves
  | (k, v) :: raw' =>
      orig_page <- int_str k ;;
      after_page <- int_jval v ;;
      if negb ((1 <=? orig_page) && (orig_page <=? page_count)) then
        Raise ValueError
      else if negb ((1 <=? after_page) && (after_page <=? page_count)) then
        Raise ValueError
      else if orig_page =? after_page then
        normalize_loop page_count raw' moves
      else
        normalize_loop page_count raw' (moves ++ [(orig_page, after_page)])
  end.

(** [moves.sort(key=lambda x: (x[1], x[0]))] *)
Definition move_key (x : Z * Z) : Z * Z := (snd x, fst x).

Definition pair_ltb (a b : Z * Z) : bool :=
  if negb (fst a =? fst b) then fst a <? fst b else snd a <? snd b.

Definition sort_moves (moves : list (Z * Z)) : list (Z * Z) :=
  sorted pair_ltb move_key moves.

(** One round of the loop over [moves]. *)
Definition apply_move (order : list Z) (m : Z * Z) : list Z :=
  let '(orig_page, after_page) := m in
  match Py.index order orig_page with
  | Some cur_idx =>
      let order1 := pop order cur_idx in
      let after_idx :=
        match Py.index order1 after_page with
        | Some i => Z.of_nat i
        | None => Z.of_nat (length order1) - 1
        end in
      let insert_pos := after_idx + 1 in
      insert order1 insert_pos orig_page
  | None => order
  end.

Definition apply_moves (moves : list (Z * Z)) (order : list Z) : list Z :=
  fold_left apply_move moves order.

(** The orders that the loop goes through: [order] at the end of each
    round. *)
Fixpoint orders_after (moves : list (Z * Z)) (order : list Z)
  : list (list Z) :=
  match moves with
  | [] => []
  | m :: moves' =>
      let order' := apply_move order m in
      order' :: orders_after moves' order'
  end.

(** [rearrange]: the page numbers in the order in which they are copied
    into the new document. *)
Definition rearrange (page_count : Z) (raw : list (string * jval))
  : result (list Z) :=
  moves <- normalize_loop page_count raw [] ;;
  let moves := sort_moves moves in
  let order := range 1 (page_count + 1) in
  Ok (apply_moves moves order).

End ManualScrambler.

(** ** Vocabulary of the statements *)

Import Py.

(** [x] is not after [y] in the order that [sorted] follows. *)
Definition key_le {A K : Type} (ltb : K -> K -> bool) (key : A -> K)
  (x y : A) : Prop :=
  ltb (key y) (key x) = false.

(** Both lookups of a round of the move loop succeed: the source is in
    the order, and the anchor is in what is left once the source is out. *)
Definition lookups_succeed (order : list Z) (m : Z * Z) : bool :=
  match Py.index order (fst m) with
  | Some cur_idx =>
      match Py.index (pop order cur_idx) (snd m) with
      | Some _ => true
      | None => false
      end
  | None => false
  end.

Fixpoint all_lookups_succeed (moves : list (Z * Z)) (order : list Z) : bool :=
  match moves with
  | [] => true
  | m :: moves' =>
      lookups_succeed order m
      && all_lookups_succeed moves' (ManualScrambler.apply_move order m)
  end.

(** The move loop as the specification words it: a round whose anchor is
    not in the order ends the run with an internal error, where
    [ManualScrambler.apply_move] goes on with the end of the order. *)
Definition checked_move (order : list Z) (m : Z * Z) : result (list Z) :=
  let '(orig_page, after_page) := m in
  match Py.index order orig_page with
  | Some cur_idx =>
      let order1 := pop order cur_idx in
      match Py.index order1 after_page with
      | Some i => Ok (insert order1 (Z.of_nat i + 1) orig_page)
      | None => Raise RuntimeError
      end
  | None => Ok order
  end.

Fixpoint checked_moves (moves : list (Z * Z)) (order : list Z)
  : result (list Z) :=
  match moves with
  | [] => Ok order
  | m :: moves' =>
      order' <- checked_move order m ;;
      checked_moves moves' order'
  end.

Definition checked_rearrange (page_count : Z)
  (raw : list (string * jval)) : result (list Z) :=
  moves <- ManualScrambler.normalize_loop page_count raw [] ;;
  checked_moves (ManualScrambler.sort_moves moves)
    (range 1 (page_count + 1)).

(** A move of the normalised list: both pages are pages of the document,
    and they differ. *)
Definition move_ok (page_count : Z) (m : Z * Z) : Prop :=
  1 <= fst m <= page_count /\ 1 <= snd m <= page_count /\ fst m <> snd m.

(** A string of one or more digits. *)
Definition digits (s : string) : Prop :=
  exists ds, s = string_of_list_ascii ds /\ ds <> []
             /\ Forall (fun c => is_digit c = true) ds.

(** What the two groups of a match of the label pattern can be. *)
Definition groups_ok (dollar : bool) (g : string * string) : Prop :=
  (digits (fst g) \/ fst g = "S"%string
   \/ (dollar = true /\ fst g = "$"%string))
  /\ digits (snd g).

(** The number and the text of the pages whose text is a string, [i]
    being the number of the first page of [doc]. *)
Fixpoint texts_from (i : Z) (doc : list Scrambler.page_text)
  : list (Z * string) :=
  match doc with
  | [] => []
  | Scrambler.Text t :: doc' => (i, t) :: texts_from (i + 1) doc'
  | Scrambler.NotText :: doc' => texts_from (i + 1) doc'
  end.

(** The entry [p] is the one of page [fst it] with text [snd it]:
    Unclassified when the label pattern has no match in the text, and
    else Classified by the last match. *)
Definition entry_of (it : Z * string) (p : Scrambler.Page) : Prop :=
  Scrambler.index p = fst it /\
  match last_opt (Re.findall true (snd it)) with
  | None => Scrambler.failed p = true
  | Some (first, second) =>
      Scrambler.failed p = false
      /\ int_str second = Ok (Scrambler.chapter_page p)
      /\ (((first = "S" \/ first = "$")%string
           /\ Scrambler.chapter p = Scrambler.ChS)
          \/ (first <> "S" /\ first <> "$")%string
             /\ exists z, int_str first = Ok z
                          /\ Scrambler.chapter p = Scrambler.ChInt z)
  end.

(** A text in which the last match of the label pattern, if there is one,
    has no run of more digits than [int()] takes. *)
Definition readable (dollar : bool) (text : string) : Prop :=
  match last_opt (Re.findall dollar text) with
  | None => True
  | Some (first, second) =>
      Z.of_nat (String.length first) <= max_str_digits
      /\ Z.of_nat (String.length second) <= max_str_digits
  end.

(** A text of ASCII characters, on which the classes [\d] and [\W] of
    the model are those of [re]. *)
Definition ascii_only (text : string) : Prop :=
  Forall (fun c => code c < 128) (list_ascii_of_string text).

(** ["9"] and so on, [n] times. *)
Fixpoint repeat_char (c : ascii) (n : nat) : string :=
  match n with
  | O => EmptyString
  | S n' => String c (repeat_char c n')
  end.

(** A Classified page has a chapter that is the Supplement or a number
    from zero on, and a page number from zero on. *)
Definition label_nonneg (p : Scrambler.Page) : Prop :=
  Scrambler.failed p = false ->
  match Scrambler.chapter p with
  | Scrambler.ChInt z => 0 <= z
  | Scrambler.ChS => True
  end
  /\ 0 <= Scrambler.chapter_page p.

(** The claim as the specification has it: both at least one. *)
Definition label_positive (p : Scrambler.Page) : Prop :=
  Scrambler.failed p = false ->
  match Scrambler.chapter p with
  | Scrambler.ChInt z => 1 <= z
  | Scrambler.ChS => True
  end
  /\ 1 <= Scrambler.chapter_page p.

(** The order of the pages that [_rearrange_page_list] follows. *)
Definition page_le : Scrambler.Page -> Scrambler.Page -> Prop :=
  key_le Scrambler.key_ltb Scrambler.sort_key.

(** The page [x] is the source of no move. *)
Definition not_source (moves : list (Z * Z)) (x : Z) : bool :=
  negb (existsb (Z.eqb x) (map fst moves)).

(** Five pages to try the statements on. *)
Definition sample_pages : list Scrambler.Page :=
  [ Scrambler.mkPage 0 true (Scrambler.ChInt 0) 0;
    Scrambler.mkPage 1 false Scrambler.ChS 1;
    Scrambler.mkPage 2 false (Scrambler.ChInt 999) 1;
    Scrambler.mkPage 3 true (Scrambler.ChInt 0) 0;
    Scrambler.mkPage 4 false (Scrambler.ChInt 2) 7 ].

(** *** The label pattern read from left to right

    What a match of the label pattern comes to, written without
    backtracking; [run_label_pattern] below shows that the matcher finds
    exactly this.  The chapter is the whole run of digits, or the one
    letter. *)
Definition chapter_token (dollar : bool) (s : list ascii)
  : option (list ascii * list ascii) :=
  match s with
  | [] => None
  | c :: s' =>
      if is_digit c then Some (span is_digit s)
      else if Re.lit "S" c || (dollar && Re.lit "$" c) then Some ([c], s')
      else None
  end.

(** [(\d+)\W*]: the whole run of digits, then the whole run of [\W]. *)
Definition page_and_tail (s : list ascii) (caps : Re.captures)
  : option Re.found :=
  let (second, r3) := span is_digit s in
  match second with
  | [] => None
  | _ :: _ => let (_, r4) := span is_nonword r3 in Some (caps ++ [second], r4)
  end.

(** [\W*\-\W*(\d+)\W*]: the hyphen is a [\W] character itself, so the
    separator is the whole run of [\W], which has to hold a hyphen. *)
Definition separator_on (s : list ascii) (caps : Re.captures)
  : option Re.found :=
  let (sep, r2) := span is_nonword s in
  if existsb (Re.lit "-") sep then page_and_tail r2 caps else None.

Definition direct_label (dollar : bool) (s : list ascii) : option Re.found :=
  match chapter_token dollar s with
  | Some (first, r1) => separator_on r1 [first]
  | None => None
  end.

(** *** The order of the labels

    What the comparison of two sort keys comes to, on the pages
    themselves: the Supplement after every numbered chapter, then the
    chapter page, then the index; Unclassified pages after the others, by
    index. *)
Definition chapter_lt (c d : Scrambler.chapter_t) : Prop :=
  match c, d with
  | Scrambler.ChInt a, Scrambler.ChInt b => a < b
  | Scrambler.ChInt _, Scrambler.ChS => True
  | Scrambler.ChS, _ => False
  end.

Definition label_le (p q : Scrambler.Page) : Prop :=
  match Scrambler.failed p, Scrambler.failed q with
  | false, true => True
  | true, false => False
  | true, true => Scrambler.index p <= Scrambler.index q
  | false, false =>
      chapter_lt (Scrambler.chapter p) (Scrambler.chapter q)
      \/ (Scrambler.chapter p = Scrambler.chapter q
          /\ (Scrambler.chapter_page p < Scrambler.chapter_page q
              \/ (Scrambler.chapter_page p = Scrambler.chapter_page q
                  /\ Scrambler.index p <= Scrambler.index q)))
  end.

(** *** The items of a move mapping

    The move that an item stands for when [int()] reads both of its
    numbers; whether the normalisation loop lets the item pass; and the
    moves that it adds to the list. *)
Definition parse_entry (e : string * jval) : result (Z * Z) :=
  orig_page <- int_str (fst e) ;;
  after_page <- int_jval (snd e) ;;
  Ok (orig_page, after_page).

Definition entry_accepted (page_count : Z) (e : string * jval) : bool :=
  match parse_entry e with
  | Ok (orig_page, after_page) =>
      (1 <=? orig_page) && (orig_page <=? page_count)
      && (1 <=? after_page) && (after_page <=? page_count)
  | Raise _ => false
  end.

Definition entry_moves (e : string * jval) : list (Z * Z) :=
  match parse_entry e with
  | Ok (orig_page, after_page) =>
      if orig_page =? after_page then [] else [(orig_page, after_page)]
  | Raise _ => []
  end.

(** The order in which the moves are applied: by anchor, then by source. *)
Definition move_le (m m' : Z * Z) : Prop :=
  snd m < snd m' \/ (snd m = snd m' /\ fst m <= fst m').

(** Everything but the page [s]. *)
Definition without (s : Z) (l : list Z) : list Z :=
  filter (fun x => negb (x =? s)) l.

(** *** The passes of [make_new_pdf]

    What the OCR pass makes of a page: a Classified page stays as it is;
    an Unclassified page stays as it is when the label pattern has no
    match in the text that the OCR engine reads, and else is Classified by
    the last match. *)
Definition ocr_result (ocr : Z -> result string) (p p' : Scrambler.Page)
  : Prop :=
  Scrambler.index p' = Scrambler.index p /\
  if Scrambler.failed p then
    exists text,
      ocr (Scrambler.index p) = Ok text /\
      match last_opt (Re.findall false text) with
      | None => p' = p
      | Some (first, second) =>
          Scrambler.failed p' = false
          /\ int_str second = Ok (Scrambler.chapter_page p')
          /\ ((first = "S"%string /\ Scrambler.chapter p' = Scrambler.ChS)
              \/ (first <> "S"%string
                  /\ exists z, int_str first = Ok z
                               /\ Scrambler.chapter p' = Scrambler.ChInt z))
      end
  else p' = p.

(** The engine reads the page [p], when the OCR pass asks for it, and
    [int()] can read the last match of what it gives. *)
Definition ocr_readable (ocr : Z -> result string) (p : Scrambler.Page)
  : Prop :=
  Scrambler.failed p = true ->
  exists text, ocr (Scrambler.index p) = Ok text /\ readable false text.

(** The page texts of a document. *)
Definition page_texts (doc : list Scrambler.page_text) : list string :=
  map snd (texts_from 0 doc).

(** The page list that [make_new_pdf] hands to [_rearrange_page_list]:
    [self.init_pages] after the text pass, the OCR pass and the manual
    adjustments. *)
Definition classified_pages (doc : list Scrambler.page_text) (HAS_OCR : bool)
  (ocr : Z -> result string) (manual_json : option (list Scrambler.adjustment))
  : result (list Scrambler.Page) :=
  p0 <- Scrambler._create_initial_page_list doc ;;
  p1 <- Scrambler._ocr_failed_pages HAS_OCR ocr p0 ;;
  match manual_json with
  | Some adjustments =>
      match Scrambler._manual_page_adjustments adjustments p1 with
      | (p, None) => Ok p
      | (_, Some e) => Raise e
      end
  | None => Ok p1
  end.

(** The page that a manual adjustment with key [k] makes of [q]. *)
Definition adjusted (k : Z) (ch : Scrambler.chapter_t) (cp : Z)
  (q : Scrambler.Page) : Scrambler.Page :=
  if Scrambler.index q =? k - 1
  then Scrambler.mkPage (k - 1) false ch cp
  else q.

(** * Facts about [sorted] *)

Section SortedFacts.
Variables (A K : Type) (ltb : K -> K -> bool) (key : A -> K).

Lemma insert_by_perm (x : A) (l : list A) :
  Permutation (x :: l) (insert_by ltb key x l).
Proof.
  induction l as [|y l IH]; simpl.
  - apply Permutation_refl.
  - destruct (ltb (key y) (key x)).
    + apply perm_trans with (y :: x :: l).
      * apply perm_swap.
      * apply perm_skip, IH.
    + apply Permutation_refl.
Qed.

Lemma sorted_perm (l : list A) : Permutation l (sorted ltb key l).
Proof.
  induction l as [|x l IH]; simpl.
  - apply perm_nil.
  - apply perm_trans with (x :: sorted ltb key l).
    + apply perm_skip, IH.
    + apply insert_by_perm.
Qed.

Lemma insert_by_in (x y : A) (l : list A) :
  In y (insert_by ltb key x l) -> y = x \/ In y l.
Proof.
  intros H.
  apply (Permutation_in y (Permutation_sym (insert_by_perm x l))) in H.
  destruct H as [H | H]; [left; symmetry; exact H | right; exact H].
Qed.

(** A list that is already in order is left as it is. *)
Lemma insert_by_head (x : A) (l : list A) :
  HdRel (key_le ltb key) x l -> insert_by ltb key x l = x :: l.
Proof.
  intros H. destruct l as [|y l]; simpl.
  - reflexivity.
  - inversion H as [|? ? Hxy]; subst. unfold key_le in Hxy.
    rewrite Hxy. reflexivity.
Qed.

Lemma sorted_fixpoint (l : list A) :
  Sorted (key_le ltb key) l -> sorted ltb key l = l.
Proof.
  induction 1 as [|x l Hs IH Hd]; simpl.
  - reflexivity.
  - rewrite IH. apply insert_by_head, Hd.
Qed.

Hypothesis ltb_asym : forall a b, ltb a b = true -> ltb b a = false.
Hypothesis leb_trans :
  forall a b c, ltb b a = false -> ltb c b = false -> ltb c a = false.

Lemma insert_by_strongly_sorted (x : A) (l : list A) :
  StronglySorted (key_le ltb key) l ->
  StronglySorted (key_le ltb key) (insert_by ltb key x l).
Proof.
  induction 1 as [|y l Hs IH Hall]; simpl.
  - constructor; constructor.
  - destruct (ltb (key y) (key x)) eqn:E.
    + constructor; [exact IH|].
      rewrite Forall_forall in *. intros z Hz.
      apply insert_by_in in Hz. destruct Hz as [-> | Hz].
      * unfold key_le. apply ltb_asym, E.
      * apply Hall, Hz.
    + constructor.
      * constructor; assumption.
      * constructor; [exact E|].
        rewrite Forall_forall in *. intros z Hz.
        unfold key_le in *. apply leb_trans with (key y); [exact E|].
        apply Hall, Hz.
Qed.

Lemma sorted_strongly_sorted (l : list A) :
  StronglySorted (key_le ltb key) (sorted ltb key l).
Proof.
  induction l as [|x l IH]; simpl.
  - constructor.
  - apply insert_by_strongly_sorted, IH.
Qed.

Lemma sorted_idempotent (l : list A) :
  sorted ltb key (sorted ltb key l) = sorted ltb key l.
Proof.
  apply sorted_fixpoint, StronglySorted_Sorted, sorted_strongly_sorted.
Qed.

(** Stability: the elements that a test keeps come out as they would if
    they had been sorted alone. *)
Lemma filter_insert_by (f : A -> bool) (x : A) (l : list A) :
  StronglySorted (key_le ltb key) l ->
  filter f (insert_by ltb key x l) =
  if f x then insert_by ltb key x (filter f l) else filter f l.
Proof.
  induction 1 as [|y l Hs IH Hall]; simpl.
  - destruct (f x); reflexivity.
  - destruct (ltb (key y) (key x)) eqn:E; simpl.
    + rewrite IH. destruct (f y) eqn:Fy, (f x) eqn:Fx; simpl;
        rewrite ?E; reflexivity.
    + destruct (f x) eqn:Fx; simpl; destruct (f y) eqn:Fy; simpl;
        rewrite ?E; try reflexivity.
      symmetry. apply insert_by_head.
      destruct (filter f l) as [|z l'] eqn:Fl; constructor.
      assert (Hz : In z l).
      { apply (proj1 (filter_In f z l)). rewrite Fl. left. reflexivity. }
      rewrite Forall_forall in Hall. unfold key_le in *.
      apply leb_trans with (key y); [exact E | apply Hall, Hz].
Qed.

Lemma filter_sorted (f : A -> bool) (l : list A) :
  filter f (sorted ltb key l) = sorted ltb key (filter f l).
Proof.
  induction l as [|x l IH]; simpl.
  - reflexivity.
  - rewrite filter_insert_by by apply sorted_strongly_sorted.
    rewrite IH. destruct (f x); reflexivity.
Qed.

End SortedFacts.

(** * The order of the sort keys

    A tuple is compared one component at a time.  One such step keeps
    asymmetry and transitivity when the component is totally ordered. *)

Section LexStep.
Variables (T : Type) (eqb ltb : T -> T -> bool).
Hypothesis eqb_spec : forall x y, reflect (x = y) (eqb x y).
Hypothesis ltb_asym : forall x y, ltb x y = true -> ltb y x = false.
Hypothesis leb_antisym :
  forall x y, ltb x y = false -> ltb y x = false -> x = y.
Hypothesis leb_trans :
  forall x y z, ltb y x = false -> ltb z y = false -> ltb z x = false.

Lemma lex_step_asym (a b : T) (r1 r2 : bool) :
  (r1 = true -> r2 = false) ->
  (if negb (eqb a b) then ltb a b else r1) = true ->
  (if negb (eqb b a) then ltb b a else r2) = false.
Proof.
  intros Hr.
  destruct (eqb_spec a b) as [->|Hab]; simpl.
  - destruct (eqb_spec b b) as [_|Hbb]; [exact Hr | congruence].
  - destruct (eqb_spec b a) as [Hba|_]; [congruence | simpl].
    apply ltb_asym.
Qed.

Lemma lex_step_trans (a b c : T) (r1 r2 r3 : bool) :
  (r1 = false -> r2 = false -> r3 = false) ->
  (if negb (eqb b a) then ltb b a else r1) = false ->
  (if negb (eqb c b) then ltb c b else r2) = false ->
  (if negb (eqb c a) then ltb c a else r3) = false.
Proof.
  intros Hr.
  destruct (eqb_spec b a) as [->|Hba]; simpl.
  - destruct (eqb_spec c a) as [->|Hca]; simpl.
    + exact Hr.
    + intros _ H. exact H.
  - destruct (eqb_spec c b) as [->|Hcb]; simpl.
    + destruct (eqb_spec b a) as [|_]; [congruence | simpl].
      intros H _. exact H.
    + intros H1 H2. destruct (eqb_spec c a) as [->|Hca]; simpl.
      * exfalso. apply Hba. apply leb_antisym; assumption.
      * apply leb_trans with b; assumption.
Qed.

End LexStep.

Lemma num_eqb_spec (a b : num) : reflect (a = b) (num_eqb a b).
Proof.
  destruct a as [x|], b as [y|]; simpl; try (constructor; congruence).
  destruct (Z.eqb_spec x y); constructor; congruence.
Qed.

Lemma num_ltb_asym (a b : num) : num_ltb a b = true -> num_ltb b a = false.
Proof.
  destruct a as [x|], b as [y|]; simpl; try congruence.
  intros H. apply Z.ltb_lt in H. apply Z.ltb_ge. lia.
Qed.

Lemma num_leb_antisym (a b : num) :
  num_ltb a b = false -> num_ltb b a = false -> a = b.
Proof.
  destruct a as [x|], b as [y|]; simpl; try congruence.
  intros H1 H2. apply Z.ltb_ge in H1, H2. f_equal. lia.
Qed.

Lemma num_leb_trans (a b c : num) :
  num_ltb b a = false -> num_ltb c b = false -> num_ltb c a = false.
Proof.
  destruct a as [x|], b as [y|], c as [z|]; simpl; try congruence.
  intros H1 H2. apply Z.ltb_ge in H1, H2. apply Z.ltb_ge. lia.
Qed.

Lemma Z_ltb_asym (x y : Z) : (x <? y) = true -> (y <? x) = false.
Proof. intros H. apply Z.ltb_lt in H. apply Z.ltb_ge. lia. Qed.

Lemma Z_leb_antisym (x y : Z) : (x <? y) = false -> (y <? x) = false -> x = y.
Proof. intros H1 H2. apply Z.ltb_ge in H1, H2. lia. Qed.

Lemma Z_leb_trans (x y z : Z) :
  (y <? x) = false -> (z <? y) = false -> (z <? x) = false.
Proof. intros H1 H2. apply Z.ltb_ge in H1, H2. apply Z.ltb_ge. lia. Qed.

Lemma key_ltb_asym (a b : Scrambler.key_t) :
  Scrambler.key_ltb a b = true -> Scrambler.key_ltb b a = false.
Proof.
  destruct a as [[[a1 a2] a3] a4], b as [[[b1 b2] b3] b4].
  unfold Scrambler.key_ltb.
  apply (lex_step_asym _ _ Z.eqb_spec Z_ltb_asym).
  apply (lex_step_asym _ _ num_eqb_spec num_ltb_asym).
  apply (lex_step_asym _ _ num_eqb_spec num_ltb_asym).
  apply Z_ltb_asym.
Qed.

Lemma key_leb_trans (a b c : Scrambler.key_t) :
  Scrambler.key_ltb b a = false -> Scrambler.key_ltb c b = false ->
  Scrambler.key_ltb c a = false.
Proof.
  destruct a as [[[a1 a2] a3] a4], b as [[[b1 b2] b3] b4],
    c as [[[c1 c2] c3] c4].
  unfold Scrambler.key_ltb.
  apply (lex_step_trans _ _ Z.eqb_spec Z_leb_antisym Z_leb_trans).
  apply (lex_step_trans _ _ num_eqb_spec num_leb_antisym num_leb_trans).
  apply (lex_step_trans _ _ num_eqb_spec num_leb_antisym num_leb_trans).
  apply Z_leb_trans.
Qed.

(** * Lists in order *)

Section StronglySortedFacts.
Variables (A : Type) (R : A -> A -> Prop).

Lemma strongly_sorted_nth (l : list A) :
  StronglySorted R l ->
  forall (i j : nat) (x y : A),
    (i < j)%nat -> nth_error l i = Some x -> nth_error l j = Some y -> R x y.
Proof.
  induction 1 as [|a l Hs IH Hall]; intros i j x y Hij Hi Hj.
  - destruct i; discriminate.
  - destruct j as [|j]; [lia|]. simpl in Hj. destruct i as [|i]; simpl in Hi.
    + injection Hi as <-. rewrite Forall_forall in Hall.
      apply Hall. eapply nth_error_In, Hj.
    + apply (IH i j); [lia | assumption | assumption].
Qed.

Lemma strongly_sorted_filter (f : A -> bool) (l : list A) :
  StronglySorted R l -> StronglySorted R (filter f l).
Proof.
  induction 1 as [|a l Hs IH Hall]; simpl.
  - constructor.
  - destruct (f a); [|exact IH]. constructor; [exact IH|].
    rewrite Forall_forall in *. intros x Hx.
    apply filter_In in Hx. apply Hall, Hx.
Qed.

Lemma filter_all (f : A -> bool) (l : list A) :
  Forall (fun x => f x = true) l ->
  filter f l = l /\ filter (fun x => negb (f x)) l = [].
Proof.
  induction 1 as [|x l Fx Hl [IH1 IH2]]; simpl.
  - split; reflexivity.
  - rewrite Fx. simpl. rewrite IH1, IH2. split; reflexivity.
Qed.

(** When [f] is handed on along [R], the elements with [f] are a suffix. *)
Lemma strongly_sorted_split (f : A -> bool) (l : list A) :
  (forall x y, R x y -> f x = true -> f y = true) ->
  StronglySorted R l ->
  l = filter (fun x => negb (f x)) l ++ filter f l.
Proof.
  intros Hf. induction 1 as [|a l Hs IH Hall]; simpl.
  - reflexivity.
  - destruct (f a) eqn:Fa; simpl.
    + assert (Hl : Forall (fun x => f x = true) l).
      { rewrite Forall_forall in *. intros x Hx. apply Hf with a; auto. }
      destruct (filter_all f Hl) as [E1 E2]. rewrite E1, E2. reflexivity.
    + f_equal. exact IH.
Qed.

End StronglySortedFacts.

Lemma strongly_sorted_map (A B : Type) (R : A -> A -> Prop)
  (R' : B -> B -> Prop) (g : A -> B) (P : A -> Prop) (l : list A) :
  (forall x y, P x -> P y -> R x y -> R' (g x) (g y)) ->
  Forall P l -> StronglySorted R l -> StronglySorted R' (map g l).
Proof.
  intros Hg HP Hs. induction Hs as [|a l Hs IH Hall]; simpl.
  - constructor.
  - inversion HP as [|? ? Pa Pl]; subst. constructor; [apply IH, Pl|].
    rewrite Forall_forall in *. intros b Hb.
    apply in_map_iff in Hb. destruct Hb as [x [<- Hx]].
    apply Hg; auto.
Qed.

(** * Scrambler: the order that [_rearrange_page_list] produces *)

Module ScramblerSpec.
Import Scrambler.

Lemma rearrange_strongly_sorted (init_pages : list Page) :
  StronglySorted page_le (_rearrange_page_list init_pages).
Proof.
  apply sorted_strongly_sorted.
  - exact key_ltb_asym.
  - exact key_leb_trans.
Qed.

Lemma rearrange_perm (init_pages : list Page) :
  Permutation init_pages (_rearrange_page_list init_pages).
Proof. apply sorted_perm. Qed.

(** An Unclassified page is only followed by Unclassified pages. *)
Lemma page_le_failed (x y : Page) :
  page_le x y -> failed x = true -> failed y = true.
Proof.
  unfold page_le, key_le, sort_key. intros H Fx. rewrite Fx in H.
  destruct (failed y); [reflexivity|]. simpl in H. discriminate.
Qed.

Lemma page_le_failed_index (x y : Page) :
  failed x = true -> failed y = true -> page_le x y -> index x <= index y.
Proof.
  unfold page_le, key_le, sort_key. intros Fx Fy H. rewrite Fx, Fy in H.
  simpl in H. apply Z.ltb_ge in H. exact H.
Qed.

Lemma failed_index_page_le (x y : Page) :
  failed x = true -> failed y = true -> index x < index y -> page_le x y.
Proof.
  unfold page_le, key_le, sort_key. intros Fx Fy H. rewrite Fx, Fy.
  simpl. apply Z.ltb_ge. lia.
Qed.

(** The key of a numbered chapter is below the key of the Supplement. *)
Lemma numbered_key_lt_supplement (p q : Page) (n : Z) :
  failed p = false -> chapter p = ChInt n ->
  failed q = false -> chapter q = ChS ->
  key_ltb (sort_key p) (sort_key q) = true.
Proof.
  unfold sort_key. intros -> -> -> ->. simpl. reflexivity.
Qed.

(** C9: sorting the output of [_rearrange_page_list] again, the pages and
    their classifications being the same, gives the same list. *)
Theorem rearrange_page_list_idempotent (init_pages : list Page) :
  _rearrange_page_list (_rearrange_page_list init_pages) =
  _rearrange_page_list init_pages.
Proof.
  apply sorted_idempotent.
  - exact key_ltb_asym.
  - exact key_leb_trans.
Qed.

(** C5: in the output of [_rearrange_page_list] the Unclassified pages
    ([failed]) are the suffix that follows all Classified pages; their
    [index] goes up along that suffix; and when the input lists the pages
    by ascending [index], as [init_pages] does, they are in the order that
    they had in the input. *)
Theorem unclassified_pages_last (init_pages : list Page) :
  let out := _rearrange_page_list init_pages in
  out = filter (fun p => negb (failed p)) out ++ filter failed out
  /\ StronglySorted Z.le (map index (filter failed out))
  /\ (StronglySorted Z.lt (map index init_pages) ->
      filter failed out = filter failed init_pages).
Proof.
  cbv zeta. split; [|split].
  - apply strongly_sorted_split with (R := page_le).
    + exact page_le_failed.
    + apply rearrange_strongly_sorted.
  - apply strongly_sorted_map
      with (R := page_le) (P := fun p => failed p = true).
    + intros x y Fx Fy. apply page_le_failed_index; assumption.
    + rewrite Forall_forall. intros x Hx. apply filter_In in Hx. apply Hx.
    + apply strongly_sorted_filter, rearrange_strongly_sorted.
  - intros Hidx. unfold _rearrange_page_list.
    rewrite filter_sorted by (exact key_ltb_asym || exact key_leb_trans).
    apply sorted_fixpoint. apply StronglySorted_Sorted.
    clear - Hidx. induction init_pages as [|x l IH]; simpl.
    + constructor.
    + simpl in Hidx. inversion Hidx as [|? ? Hs Hall]; subst.
      specialize (IH Hs). destruct (failed x) eqn:Fx; [|exact IH].
      constructor; [exact IH|].
      rewrite Forall_forall in *. intros y Hy.
      apply filter_In in Hy. destruct Hy as [Hy Fy].
      apply failed_index_page_le; auto.
      apply Hall, in_map, Hy.
Qed.

Lemma unclassified_pages_last_witness :
  filter failed (_rearrange_page_list sample_pages)
  = filter failed sample_pages.
Proof.
  apply (proj2 (proj2 (unclassified_pages_last sample_pages))).
  unfold sample_pages. simpl.
  repeat (constructor; [|repeat (constructor; try lia)]). constructor.
Defined.

(** C6: when [p] is Classified with a numbered chapter and [q] is
    Classified with the Supplement chapter ["S"], both of [init_pages],
    then both are in the output of [_rearrange_page_list], and wherever
    they stand there, [p] stands before [q]; [chapter_page] plays no
    part. *)
Theorem numbered_before_supplement (init_pages : list Page) (p q : Page)
  (n : Z) :
  In p init_pages -> In q init_pages ->
  failed p = false -> chapter p = ChInt n ->
  failed q = false -> chapter q = ChS ->
  let out := _rearrange_page_list init_pages in
  (exists i j, nth_error out i = Some p /\ nth_error out j = Some q)
  /\ (forall i j,
        nth_error out i = Some p -> nth_error out j = Some q -> (i < j)%nat).
Proof.
  intros Hp Hq Fp Cp Fq Cq. cbv zeta. split.
  - apply (Permutation_in _ (rearrange_perm init_pages)) in Hp, Hq.
    apply In_nth_error in Hp, Hq.
    destruct Hp as [i Hi], Hq as [j Hj]. exists i, j. split; assumption.
  - intros i j Hi Hj.
    pose proof (@numbered_key_lt_supplement p q n Fp Cp Fq Cq) as Hlt.
    destruct (Nat.lt_trichotomy i j) as [H | [H | H]]; [exact H | |].
    + subst j. rewrite Hi in Hj. injection Hj as <-. congruence.
    + exfalso.
      pose proof (@strongly_sorted_nth _ _ _
                    (rearrange_strongly_sorted init_pages) j i q p H Hj Hi)
        as Hle.
      unfold page_le, key_le in Hle. congruence.
Qed.

Lemma numbered_before_supplement_witness :
  let out := _rearrange_page_list sample_pages in
  (exists i j, nth_error out i = Some (mkPage 2 false (ChInt 999) 1)
            /\ nth_error out j = Some (mkPage 1 false ChS 1))
  /\ (forall i j,
        nth_error out i = Some (mkPage 2 false (ChInt 999) 1) ->
        nth_error out j = Some (mkPage 1 false ChS 1) -> (i < j)%nat).
Proof.
  apply (@numbered_before_supplement sample_pages
           (mkPage 2 false (ChInt 999) 1) (mkPage 1 false ChS 1) 999).
  - simpl. auto.
  - simpl. auto.
  - reflexivity.
  - reflexivity.
  - reflexivity.
  - reflexivity.
Defined.

End ScramblerSpec.

(** * Facts about the list operations *)

Lemma index_none (l : list Z) (x : Z) : Py.index l x = None <-> ~ In x l.
Proof.
  induction l as [|y l IH]; simpl.
  - split; [intros _ H; exact H | reflexivity].
  - destruct (Z.eqb_spec y x) as [->|Hyx].
    + split; [discriminate | intros H; exfalso; apply H; left; reflexivity].
    + destruct (Py.index l x) as [i|].
      * split; [discriminate|]. intros H. exfalso.
        assert (Hn : ~ In x l) by (intros Hin; apply H; right; exact Hin).
        apply IH in Hn. discriminate.
      * split; [|reflexivity]. intros _ [H | H]; [congruence|].
        revert H. apply IH. reflexivity.
Qed.

Lemma index_some_in (l : list Z) (x : Z) :
  In x l -> exists i, Py.index l x = Some i.
Proof.
  intros H. destruct (Py.index l x) as [i|] eqn:E.
  - exists i. reflexivity.
  - apply index_none in E. contradiction.
Qed.

(** Taking [x] out at the place where [index] finds it. *)
Lemma pop_index_perm (l : list Z) (x : Z) (i : nat) :
  Py.index l x = Some i -> Permutation l (x :: pop l i).
Proof.
  revert i. induction l as [|y l IH]; simpl; intros i H.
  - discriminate.
  - destruct (Z.eqb_spec y x) as [->|Hyx].
    + injection H as <-. apply Permutation_refl.
    + destruct (Py.index l x) as [j|]; [|discriminate].
      injection H as <-. simpl.
      apply perm_trans with (y :: x :: pop l j).
      * apply perm_skip, IH. reflexivity.
      * apply perm_swap.
Qed.

Lemma insert_split (l : list Z) (i x : Z) :
  exists k, Py.insert l i x = firstn k l ++ x :: skipn k l.
Proof. unfold Py.insert. eexists. reflexivity. Qed.

Lemma insert_perm (l : list Z) (i x : Z) :
  Permutation (x :: l) (Py.insert l i x).
Proof.
  destruct (insert_split l i x) as [k ->].
  rewrite <- (firstn_skipn k l) at 1. apply Permutation_middle.
Qed.

(** Past the end, [insert] appends. *)
Lemma insert_at_end (l : list Z) (x : Z) :
  Py.insert l (Z.of_nat (length l) - 1 + 1) x = l ++ [x].
Proof.
  unfold Py.insert.
  replace (Z.of_nat (length l) - 1 + 1) with (Z.of_nat (length l)) by lia.
  destruct (Z.ltb_spec (Z.of_nat (length l)) 0) as [H|_]; [lia|].
  rewrite Z.min_id, Nat2Z.id, firstn_all, skipn_all. reflexivity.
Qed.

(** Right after the place where [index] finds the anchor. *)
Lemma insert_after_index (l : list Z) (a x : Z) (i : nat) :
  Py.index l a = Some i ->
  exists l1 l2, l = l1 ++ a :: l2 /\ ~ In a l1 /\
                Py.insert l (Z.of_nat i + 1) x = l1 ++ a :: x :: l2.
Proof.
  revert i. induction l as [|y l IH]; simpl; intros i H.
  - discriminate.
  - destruct (Z.eqb_spec y a) as [->|Hya].
    + injection H as <-. exists [], l.
      split; [reflexivity|]. split; [intros []|].
      unfold Py.insert. simpl.
      destruct (Z.ltb_spec 1 0) as [H|_]; [lia|].
      replace (Z.to_nat (Z.min 1 (Z.pos (Pos.of_succ_nat (length l)))))
        with 1%nat by lia.
      reflexivity.
    + destruct (Py.index l a) as [j|]; [|discriminate].
      injection H as <-. destruct (IH j eq_refl) as (l1 & l2 & E & Hn & Hi).
      exists (y :: l1), l2. split; [simpl; congruence|]. split.
      * intros [H | H]; [congruence | contradiction].
      * revert Hi. unfold Py.insert.
        replace (Z.of_nat (S j) + 1 <? 0) with false
          by (symmetry; apply Z.ltb_ge; lia).
        replace (Z.of_nat j + 1 <? 0) with false
          by (symmetry; apply Z.ltb_ge; lia).
        simpl length.
        assert (Hk : Z.to_nat (Z.min (Z.of_nat (S j) + 1)
                                  (Z.of_nat (S (length l))))
                     = S (Z.to_nat (Z.min (Z.of_nat j + 1)
                                      (Z.of_nat (length l))))) by lia.
        rewrite Hk. simpl. intros ->. reflexivity.
Qed.

Lemma range_in (a b x : Z) : In x (Py.range a b) <-> a <= x < b.
Proof.
  unfold Py.range. rewrite in_map_iff. split.
  - intros [k [<- Hk]]. apply in_seq in Hk. lia.
  - intros H. exists (Z.to_nat (x - a)). split; [lia|].
    apply in_seq. lia.
Qed.

Lemma range_nodup (a b : Z) : NoDup (Py.range a b).
Proof.
  unfold Py.range. apply Finite.Injective_map_NoDup.
  - intros x y H. lia.
  - apply seq_NoDup.
Qed.

Lemma range_cons (a b : Z) : a < b -> Py.range a b = a :: Py.range (a + 1) b.
Proof.
  intros H. unfold Py.range.
  replace (Z.to_nat (b - a)) with (S (Z.to_nat (b - (a + 1)))) by lia.
  simpl. f_equal; [lia|].
  rewrite <- seq_shift, map_map. apply map_ext. intros k. lia.
Qed.

Lemma map_seq_shift (a : Z) (d n o : nat) :
  map (fun k => a + Z.of_nat k) (seq (o + d) n) =
  map (fun k => a + Z.of_nat d + Z.of_nat k) (seq o n).
Proof.
  revert o. induction n as [|n IH]; intros o; simpl.
  - reflexivity.
  - f_equal; [lia|]. apply (IH (S o)).
Qed.

Lemma range_app (a m b : Z) :
  a <= m <= b -> Py.range a b = Py.range a m ++ Py.range m b.
Proof.
  intros H. unfold Py.range.
  replace (Z.to_nat (b - a)) with (Z.to_nat (m - a) + Z.to_nat (b - m))%nat
    by lia.
  rewrite seq_app, map_app. f_equal.
  rewrite map_seq_shift. apply map_ext. intros k. lia.
Qed.

(** What a test keeps of a list, cut at one of the kept elements. *)
Lemma filter_split (f : Z -> bool) (l m1 m2 : list Z) (a : Z) :
  filter f l = m1 ++ a :: m2 ->
  exists l1 l2, l = l1 ++ a :: l2 /\ filter f l1 = m1 /\ filter f l2 = m2.
Proof.
  revert m1. induction l as [|x l IH]; intros m1; simpl.
  - destruct m1; discriminate.
  - destruct (f x) eqn:Fx.
    + destruct m1 as [|y m1]; simpl; intros H; injection H as -> H.
      * exists [], l. auto.
      * destruct (IH _ H) as (l1 & l2 & -> & H1 & H2).
        exists (y :: l1), l2. simpl. rewrite Fx, H1. auto.
    + intros H. destruct (IH _ H) as (l1 & l2 & -> & H1 & H2).
      exists (x :: l1), l2. simpl. rewrite Fx. auto.
Qed.

Lemma pop_index_filter (f : Z -> bool) (l : list Z) (x : Z) (i : nat) :
  Py.index l x = Some i -> f x = false -> filter f (pop l i) = filter f l.
Proof.
  intros H Fx. revert i H. induction l as [|y l IH]; simpl; intros i H.
  - discriminate.
  - destruct (Z.eqb_spec y x) as [->|Hyx].
    + injection H as <-. rewrite Fx. reflexivity.
    + destruct (Py.index l x) as [j|]; [|discriminate].
      injection H as <-. simpl. rewrite (IH j eq_refl). reflexivity.
Qed.

Lemma insert_filter (f : Z -> bool) (l : list Z) (i x : Z) :
  f x = false -> filter f (Py.insert l i x) = filter f l.
Proof.
  intros Fx. destruct (insert_split l i x) as [k ->].
  rewrite filter_app. simpl. rewrite Fx, <- filter_app, firstn_skipn.
  reflexivity.
Qed.

Lemma last_cons_default (A : Type) (l : list A) (x d d' : A) :
  last (x :: l) d = last (x :: l) d'.
Proof.
  revert x. induction l as [|y l IH]; intros x.
  - reflexivity.
  - change (last (y :: l) d = last (y :: l) d'). apply IH.
Qed.

(** * ManualScrambler: the move loop *)

Module ManualScramblerSpec.
Import ManualScrambler.

Lemma apply_move_perm (order : list Z) (m : Z * Z) :
  Permutation order (apply_move order m).
Proof.
  destruct m as [orig_page after_page]. unfold apply_move.
  destruct (Py.index order orig_page) as [cur_idx|] eqn:E.
  - apply perm_trans with (orig_page :: pop order cur_idx).
    + apply pop_index_perm, E.
    + apply insert_perm.
  - apply Permutation_refl.
Qed.

(** When the anchor is found, the source goes right behind its first
    occurrence. *)
Lemma apply_move_after_anchor (order : list Z) (orig_page after_page : Z)
  (cur_idx i : nat) :
  Py.index order orig_page = Some cur_idx ->
  Py.index (pop order cur_idx) after_page = Some i ->
  exists l1 l2,
    pop order cur_idx = l1 ++ after_page :: l2 /\ ~ In after_page l1
    /\ apply_move order (orig_page, after_page)
       = l1 ++ after_page :: orig_page :: l2.
Proof.
  intros Hs Ha. unfold apply_move. rewrite Hs, Ha.
  apply insert_after_index, Ha.
Qed.

Lemma orders_after_perm (moves : list (Z * Z)) (order : list Z) :
  Forall (fun o => Permutation order o) (orders_after moves order).
Proof.
  revert order. induction moves as [|m moves IH]; intros order; simpl.
  - constructor.
  - constructor.
    + apply apply_move_perm.
    + eapply Forall_impl; [|apply IH]. simpl. intros o Ho.
      eapply perm_trans; [apply apply_move_perm | exact Ho].
Qed.

Lemma apply_moves_perm (moves : list (Z * Z)) (order : list Z) :
  Permutation order (apply_moves moves order).
Proof.
  unfold apply_moves. revert order.
  induction moves as [|m moves IH]; intros order; simpl.
  - apply Permutation_refl.
  - eapply perm_trans; [apply apply_move_perm | apply IH].
Qed.

(** The order when the loop ends is the last of the orders it went
    through. *)
Lemma apply_moves_last (moves : list (Z * Z)) (order : list Z) :
  apply_moves moves order = last (orders_after moves order) order.
Proof.
  unfold apply_moves. revert order.
  induction moves as [|m moves IH]; intros order; simpl.
  - reflexivity.
  - rewrite IH. destruct (orders_after moves (apply_move order m)) eqn:E.
    + reflexivity.
    + apply last_cons_default.
Qed.

(** *** What [int()] raises *)

Lemma int_str_raise (s : string) (e : exn) :
  int_str s = Raise e -> e = ValueError.
Proof.
  unfold int_str, int_chars.
  destruct (match strip (list_ascii_of_string s) with
            | [] => None
            | c :: s' =>
                if code c =? 43 then int_body 0 false s'
                else if code c =? 45
                     then option_map Z.opp (int_body 0 false s')
                     else int_body 0 false (c :: s')
            end) as [z|].
  - destruct (max_str_digits <? _); [|discriminate].
    intros H. injection H as <-. reflexivity.
  - intros H. injection H as <-. reflexivity.
Qed.

Lemma int_jval_raise (v : jval) (e : exn) :
  int_jval v = Raise e -> e = ValueError.
Proof.
  destruct v as [z|s]; simpl; [discriminate | apply int_str_raise].
Qed.

(** *** The normalisation loop *)

Lemma normalize_loop_raise (page_count : Z) (raw : list (string * jval))
  (moves : list (Z * Z)) (e : exn) :
  normalize_loop page_count raw moves = Raise e -> e = ValueError.
Proof.
  revert moves. induction raw as [|[k v] raw IH]; intros moves; simpl.
  - discriminate.
  - destruct (int_str k) as [orig_page|e1] eqn:Ek; simpl.
    2: { intros H. injection H as <-. eapply int_str_raise, Ek. }
    destruct (int_jval v) as [after_page|e2] eqn:Ev; simpl.
    2: { intros H. injection H as <-. eapply int_jval_raise, Ev. }
    destruct (negb ((1 <=? orig_page) && (orig_page <=? page_count))).
    { intros H. injection H as <-. reflexivity. }
    destruct (negb ((1 <=? after_page) && (after_page <=? page_count))).
    { intros H. injection H as <-. reflexivity. }
    destruct (orig_page =? after_page); apply IH.
Qed.

Lemma normalize_loop_ok (page_count : Z) (raw : list (string * jval))
  (moves result : list (Z * Z)) :
  normalize_loop page_count raw moves = Ok result ->
  Forall (move_ok page_count) moves -> Forall (move_ok page_count) result.
Proof.
  revert moves. induction raw as [|[k v] raw IH]; intros moves; simpl.
  - intros H. injection H as <-. auto.
  - destruct (int_str k) as [orig_page|e1]; simpl; [|discriminate].
    destruct (int_jval v) as [after_page|e2]; simpl; [|discriminate].
    destruct (Z.leb_spec 1 orig_page); simpl; [|discriminate].
    destruct (Z.leb_spec orig_page page_count); simpl; [|discriminate].
    destruct (Z.leb_spec 1 after_page); simpl; [|discriminate].
    destruct (Z.leb_spec after_page page_count); simpl; [|discriminate].
    destruct (Z.eqb_spec orig_page after_page) as [|Hne].
    + apply IH.
    + intros E Hm. apply (IH _ E). apply Forall_app. split; [exact Hm|].
      constructor; [|constructor]. unfold move_ok. simpl. lia.
Qed.

(** An entry that names a page outside [1 .. page_count] stops the loop. *)
Lemma normalize_loop_rejects (page_count : Z) (raw : list (string * jval))
  (moves : list (Z * Z)) (k : string) (v : jval) :
  In (k, v) raw ->
  (exists s, int_str k = Ok s /\ ~ 1 <= s <= page_count) \/
  (exists a, int_jval v = Ok a /\ ~ 1 <= a <= page_count) ->
  normalize_loop page_count raw moves = Raise ValueError.
Proof.
  intros Hin Hbad. revert moves.
  induction raw as [|[k' v'] raw IH]; intros moves.
  - destruct Hin.
  - destruct (normalize_loop page_count ((k', v') :: raw) moves)
      as [result|e] eqn:E.
    2: { f_equal. eapply normalize_loop_raise, E. }
    exfalso. simpl in E.
    destruct (int_str k') as [orig_page|e1] eqn:Ek; simpl in E;
      [|discriminate].
    destruct (int_jval v') as [after_page|e2] eqn:Ev; simpl in E;
      [|discriminate].
    destruct (Z.leb_spec 1 orig_page); simpl in E; [|discriminate].
    destruct (Z.leb_spec orig_page page_count); simpl in E; [|discriminate].
    destruct (Z.leb_spec 1 after_page); simpl in E; [|discriminate].
    destruct (Z.leb_spec after_page page_count); simpl in E; [|discriminate].
    destruct Hin as [Hhd | Htl].
    + injection Hhd as -> ->.
      destruct Hbad as [[s [Hs Hr]] | [a [Ha Hr]]].
      * rewrite Ek in Hs. injection Hs as <-. lia.
      * rewrite Ev in Ha. injection Ha as <-. lia.
    + destruct (orig_page =? after_page);
        rewrite (IH Htl) in E; discriminate.
Qed.

Lemma sort_moves_ok (page_count : Z) (moves : list (Z * Z)) :
  Forall (move_ok page_count) moves ->
  Forall (move_ok page_count) (sort_moves moves).
Proof.
  apply Permutation_Forall. apply sorted_perm.
Qed.

(** *** The lookups of the move loop *)

Lemma lookups_succeed_ok (page_count : Z) (order : list Z) (m : Z * Z) :
  move_ok page_count m ->
  (forall x, 1 <= x <= page_count -> In x order) ->
  lookups_succeed order m = true.
Proof.
  intros (Hs & Ha & Hne) Hall. unfold lookups_succeed.
  destruct (index_some_in order (fst m) (Hall _ Hs)) as [cur_idx E].
  rewrite E.
  assert (Hin : In (snd m) (pop order cur_idx)).
  { pose proof (Permutation_in _ (pop_index_perm _ _ E) (Hall _ Ha)) as H.
    destruct H as [H | H]; [congruence | exact H]. }
  destruct (index_some_in _ _ Hin) as [i ->]. reflexivity.
Qed.

Lemma all_lookups_succeed_ok (page_count : Z) (moves : list (Z * Z))
  (order : list Z) :
  Forall (move_ok page_count) moves ->
  (forall x, 1 <= x <= page_count -> In x order) ->
  all_lookups_succeed moves order = true.
Proof.
  intros Hm. revert order. induction Hm as [|m moves Hok Hm IH];
    intros order Hall; simpl.
  - reflexivity.
  - rewrite (lookups_succeed_ok order Hok Hall). simpl. apply IH.
    intros x Hx. apply (Permutation_in _ (apply_move_perm order m)).
    apply Hall, Hx.
Qed.

(** *** The pages that no move names *)

Lemma not_source_spec (moves : list (Z * Z)) (x : Z) :
  not_source moves x = true <-> ~ In x (map fst moves).
Proof.
  unfold not_source. rewrite negb_true_iff, <- not_true_iff_false.
  rewrite existsb_exists. split.
  - intros H Hin. apply H. exists x. split; [exact Hin | apply Z.eqb_refl].
  - intros H [y [Hin Hy]]. apply Z.eqb_eq in Hy. subst y. contradiction.
Qed.

Lemma apply_move_filter (f : Z -> bool) (order : list Z) (m : Z * Z) :
  f (fst m) = false -> filter f (apply_move order m) = filter f order.
Proof.
  destruct m as [orig_page after_page]. simpl. intros Fx.
  unfold apply_move.
  destruct (Py.index order orig_page) as [cur_idx|] eqn:E; [|reflexivity].
  rewrite insert_filter by exact Fx. apply pop_index_filter with orig_page;
    assumption.
Qed.

Lemma apply_moves_filter (f : Z -> bool) (moves : list (Z * Z))
  (order : list Z) :
  Forall (fun m => f (fst m) = false) moves ->
  filter f (apply_moves moves order) = filter f order.
Proof.
  unfold apply_moves. intros H. revert order.
  induction H as [|m moves Hm H IH]; intros order; simpl.
  - reflexivity.
  - rewrite IH. apply apply_move_filter, Hm.
Qed.

Lemma rearrange_ok (page_count : Z) (raw : list (string * jval))
  (moves : list (Z * Z)) :
  normalize_loop page_count raw [] = Ok moves ->
  rearrange page_count raw =
  Ok (apply_moves (sort_moves moves) (range 1 (page_count + 1))).
Proof. unfold rearrange. intros ->. reflexivity. Qed.

(** C1: on thirty pages the moves [{"20": 5, "30": 10}] give an order
    whose 6th element is page 20 and whose 12th element is page 30. *)
Theorem worked_example :
  exists order,
    rearrange 30 [("20"%string, JInt 5); ("30"%string, JInt 10)] = Ok order
    /\ nth_error order 5 = Some 20
    /\ nth_error order 11 = Some 30.
Proof.
  eexists. split; [vm_compute; reflexivity|]. split; reflexivity.
Qed.

(** C10: after a move set that [rearrange] accepts, two pages [a < b] that
    are the source of no move stand in the final order as in the identity
    order, [a] before [b]; the final order has no page twice, so this is
    their only relative position. *)
Theorem unmoved_pages_keep_order (page_count : Z)
  (raw : list (string * jval)) (moves : list (Z * Z)) (a b : Z) :
  normalize_loop page_count raw [] = Ok moves ->
  1 <= a -> a < b -> b <= page_count ->
  ~ In a (map fst moves) -> ~ In b (map fst moves) ->
  exists final l1 l2 l3,
    rearrange page_count raw = Ok final
    /\ NoDup final
    /\ final = l1 ++ a :: l2 ++ b :: l3.
Proof.
  intros Hn Ha Hab Hb Sa Sb.
  exists (apply_moves (sort_moves moves) (range 1 (page_count + 1))).
  pose proof (apply_moves_perm (sort_moves moves)
                (range 1 (page_count + 1))) as Hperm.
  rewrite (@rearrange_ok page_count raw moves Hn).
  set (f := not_source moves).
  remember (apply_moves (sort_moves moves) (range 1 (page_count + 1)))
    as final eqn:Efinal.
  assert (Hf : filter f final = filter f (range 1 (page_count + 1))).
  { rewrite Efinal. apply apply_moves_filter.
    rewrite Forall_forall. intros m Hm.
    apply (Permutation_in _ (Permutation_sym (sorted_perm _ _ moves))) in Hm.
    apply not_true_is_false. unfold f. rewrite not_source_spec.
    intros H. apply H. apply in_map, Hm. }
  rewrite (range_app (a := 1) (m := a) (b := page_count + 1)) in Hf by lia.
  rewrite (range_cons (a := a)) in Hf by lia.
  rewrite (range_app (a := a + 1) (m := b) (b := page_count + 1)) in Hf by lia.
  rewrite (range_cons (a := b)) in Hf by lia.
  rewrite filter_app in Hf. simpl in Hf. rewrite filter_app in Hf.
  simpl in Hf.
  replace (f a) with true in Hf
    by (symmetry; apply not_source_spec; exact Sa).
  replace (f b) with true in Hf
    by (symmetry; apply not_source_spec; exact Sb).
  apply filter_split in Hf. destruct Hf as (l1 & r & E & _ & Hr).
  apply filter_split in Hr. destruct Hr as (l2 & l3 & -> & _ & _).
  exists l1, l2, l3. split; [reflexivity|]. split; [|exact E].
  apply (Permutation_NoDup Hperm). apply range_nodup.
Qed.

Lemma unmoved_pages_keep_order_witness :
  exists final l1 l2 l3,
    rearrange 6 [("5"%string, JInt 2); ("3"%string, JStr "3")] = Ok final
    /\ NoDup final
    /\ final = l1 ++ 3 :: l2 ++ 4 :: l3.
Proof.
  apply (@unmoved_pages_keep_order 6
           [("5"%string, JInt 2); ("3"%string, JStr "3")] [(5, 2)] 3 4).
  - vm_compute. reflexivity.
  - lia.
  - lia.
  - lia.
  - simpl. intros [H | []]. lia.
  - simpl. intros [H | []]. lia.
Defined.

Lemma checked_moves_found (moves : list (Z * Z)) (order : list Z) :
  all_lookups_succeed moves order = true ->
  checked_moves moves order = Ok (apply_moves moves order).
Proof.
  revert order. induction moves as [|[orig_page after_page] moves IH];
    intros order; cbn [all_lookups_succeed checked_moves].
  - reflexivity.
  - rewrite andb_true_iff. intros [Hl Hrest].
    assert (Hc : checked_move order (orig_page, after_page)
                 = Ok (apply_move order (orig_page, after_page))).
    { unfold lookups_succeed in Hl. unfold checked_move, apply_move.
      cbn [fst snd] in Hl.
      destruct (Py.index order orig_page) as [cur_idx|]; [|discriminate].
      destruct (Py.index (pop order cur_idx) after_page) as [i|];
        [|discriminate].
      reflexivity. }
    rewrite Hc. cbn [bind]. rewrite (IH _ Hrest). reflexivity.
Qed.

(** C3: in every run of [rearrange], every round of the move loop finds
    its source and then its anchor in the order, so that no round puts its
    source at the end of the order for want of the anchor: [rearrange]
    returns, or raises, what the loop that ends with an internal error on
    a missing anchor returns or raises, and that error is never raised. *)
Theorem anchor_always_found (page_count : Z) (raw : list (string * jval)) :
  checked_rearrange page_count raw = rearrange page_count raw
  /\ (forall moves,
        normalize_loop page_count raw [] = Ok moves ->
        all_lookups_succeed (sort_moves moves) (range 1 (page_count + 1))
        = true).
Proof.
  assert (Hall : forall moves,
             normalize_loop page_count raw [] = Ok moves ->
             all_lookups_succeed (sort_moves moves)
               (range 1 (page_count + 1)) = true).
  { intros moves Hn. apply all_lookups_succeed_ok with page_count.
    - apply sort_moves_ok.
      apply (@normalize_loop_ok page_count raw [] moves Hn). constructor.
    - intros x Hx. apply range_in. lia. }
  split; [|exact Hall].
  unfold checked_rearrange, rearrange.
  destruct (normalize_loop page_count raw []) as [moves|e] eqn:En;
    cbn [bind]; [|reflexivity].
  apply checked_moves_found, Hall. reflexivity.
Qed.

Lemma anchor_always_found_witness :
  checked_rearrange 3 [("3"%string, JInt 1); ("1"%string, JInt 2)]
  = rearrange 3 [("3"%string, JInt 1); ("1"%string, JInt 2)]
  /\ all_lookups_succeed (sort_moves [(3, 1); (1, 2)]) (range 1 (3 + 1))
     = true.
Proof.
  split.
  - apply (proj1 (@anchor_always_found 3
                    [("3"%string, JInt 1); ("1"%string, JInt 2)])).
  - apply (proj2 (@anchor_always_found 3
                    [("3"%string, JInt 1); ("1"%string, JInt 2)])).
    vm_compute. reflexivity.
Defined.

End ManualScramblerSpec.

(** * Characters, [int()] and the label pattern *)

Lemma is_digit_spec (c : ascii) : is_digit c = true <-> 48 <= code c <= 57.
Proof.
  unfold is_digit. rewrite andb_true_iff, !Z.leb_le. reflexivity.
Qed.

Lemma digit_not_space (c : ascii) : is_digit c = true -> is_space c = false.
Proof.
  rewrite is_digit_spec. intros H. unfold is_space.
  destruct (Z.leb_spec 9 (code c)), (Z.leb_spec (code c) 13),
    (Z.eqb_spec (code c) 32); simpl; try reflexivity; lia.
Qed.

Lemma digit_val_nonneg (c : ascii) : is_digit c = true -> 0 <= digit_val c.
Proof. rewrite is_digit_spec. unfold digit_val. lia. Qed.

Lemma span_spec (A : Type) (p : A -> bool) (l a b : list A) :
  span p l = (a, b) -> l = a ++ b /\ Forall (fun x => p x = true) a.
Proof.
  revert a b. induction l as [|x l IH]; simpl; intros a b H.
  - injection H as <- <-. split; [reflexivity | constructor].
  - destruct (p x) eqn:Px.
    + destruct (span p l) as [a' b']. injection H as <- <-.
      destruct (IH a' b' eq_refl) as [-> Ha]. split; [reflexivity|].
      constructor; assumption.
    + injection H as <- <-. split; [reflexivity | constructor].
Qed.

Lemma int_body_digits (ds : list ascii) :
  Forall (fun c => is_digit c = true) ds ->
  forall (acc : Z) (after_digit : bool),
    0 <= acc -> ds <> [] \/ after_digit = true ->
    exists z, int_body acc after_digit ds = Some z /\ 0 <= z.
Proof.
  induction 1 as [|c ds Hc Hds IH]; intros acc after_digit Hacc Hne;
    cbn [int_body].
  - destruct Hne as [Hne | ->]; [congruence|]. exists acc. auto.
  - rewrite Hc. apply IH; [|right; reflexivity].
    pose proof (@digit_val_nonneg c Hc). lia.
Qed.

Lemma dropwhile_space_digits (ds : list ascii) :
  ds <> [] -> Forall (fun c => is_digit c = true) ds ->
  dropwhile is_space ds = ds.
Proof.
  intros Hne Hds. destruct Hds as [|c ds Hc Hds]; [congruence|].
  simpl. rewrite (digit_not_space c Hc). reflexivity.
Qed.

Lemma strip_digits (ds : list ascii) :
  ds <> [] -> Forall (fun c => is_digit c = true) ds -> strip ds = ds.
Proof.
  intros Hne Hds. unfold strip.
  rewrite (dropwhile_space_digits Hne Hds).
  rewrite dropwhile_space_digits.
  - apply rev_involutive.
  - intros H. apply Hne. rewrite <- (rev_involutive ds), H. reflexivity.
  - apply Forall_rev, Hds.
Qed.

Lemma string_length_of_list (ds : list ascii) :
  String.length (string_of_list_ascii ds) = length ds.
Proof.
  induction ds as [|c ds IH]; cbn; [reflexivity | rewrite IH; reflexivity].
Qed.

Lemma filter_digits_all (ds : list ascii) :
  Forall (fun c => is_digit c = true) ds -> filter is_digit ds = ds.
Proof.
  induction 1 as [|c ds Hc Hds IH]; cbn [filter].
  - reflexivity.
  - rewrite Hc, IH. reflexivity.
Qed.

(** [int()] of a string of digits: a number from zero on when the string
    has no more digits than [int()] takes, and [ValueError] when it has. *)
Lemma int_str_digits_cases (s : string) :
  digits s ->
  exists z, 0 <= z /\
    int_str s =
    if max_str_digits <? Z.of_nat (String.length s)
    then Raise ValueError
    else Ok z.
Proof.
  intros (ds & -> & Hne & Hds). unfold int_str, int_chars.
  rewrite string_length_of_list.
  rewrite list_ascii_of_string_of_list_ascii, (strip_digits Hne Hds).
  rewrite (filter_digits_all Hds).
  destruct Hds as [|c ds Hc Hds]; [congruence|].
  assert (H43 : (code c =? 43) = false)
    by (apply is_digit_spec in Hc; apply Z.eqb_neq; lia).
  assert (H45 : (code c =? 45) = false)
    by (apply is_digit_spec in Hc; apply Z.eqb_neq; lia).
  rewrite H43, H45.
  destruct (@int_body_digits (c :: ds) (Forall_cons _ Hc Hds) 0 false)
    as (z & -> & Hz); [lia | left; discriminate |].
  exists z. split; [exact Hz | reflexivity].
Qed.

Lemma int_str_digits (s : string) :
  digits s -> Z.of_nat (String.length s) <= max_str_digits ->
  exists z, int_str s = Ok z /\ 0 <= z.
Proof.
  intros Hd Hlen. destruct (int_str_digits_cases Hd) as (z & Hz & E).
  exists z. split; [|exact Hz]. rewrite E.
  destruct (Z.ltb_spec max_str_digits (Z.of_nat (String.length s)));
    [lia | reflexivity].
Qed.

Lemma int_str_digits_long (s : string) :
  digits s -> max_str_digits < Z.of_nat (String.length s) ->
  int_str s = Raise ValueError.
Proof.
  intros Hd Hlen. destruct (int_str_digits_cases Hd) as (z & Hz & E).
  rewrite E.
  destruct (Z.ltb_spec max_str_digits (Z.of_nat (String.length s)));
    [reflexivity | lia].
Qed.

Lemma int_str_digits_ok (s : string) (z : Z) :
  digits s -> int_str s = Ok z ->
  0 <= z /\ Z.of_nat (String.length s) <= max_str_digits.
Proof.
  intros Hd E. destruct (int_str_digits_cases Hd) as (z' & Hz & E').
  rewrite E' in E.
  destruct (Z.ltb_spec max_str_digits (Z.of_nat (String.length s)));
    [discriminate|].
  injection E as <-. split; assumption.
Qed.

Lemma digits_not_letter (s : string) (c : ascii) :
  digits s -> is_digit c = false -> String.eqb s (String c EmptyString) = false.
Proof.
  intros (ds & -> & Hne & Hds) Hc.
  destruct Hds as [|d ds Hd Hds]; [congruence|]. simpl.
  destruct (Ascii.eqb_spec d c) as [->|]; [congruence | reflexivity].
Qed.

Import Re.

(** What is left after a maximal run does not start in the class. *)
Lemma span_rest (A : Type) (p : A -> bool) (l a b : list A) :
  span p l = (a, b) ->
  match b with
  | [] => True
  | x :: _ => p x = false
  end.
Proof.
  revert a. induction l as [|x l IH]; simpl; intros a H.
  - injection H as <- <-. exact I.
  - destruct (p x) eqn:Px.
    + destruct (span p l) as [a' b']. injection H as <- <-.
      apply (IH a' eq_refl).
    + injection H as <- <-. exact Px.
Qed.

Lemma span_app (A : Type) (p : A -> bool) (a b : list A) :
  Forall (fun x => p x = true) a ->
  match b with
  | [] => True
  | x :: _ => p x = false
  end ->
  span p (a ++ b) = (a, b).
Proof.
  intros Ha Hb. induction Ha as [|x a Px Ha IH]; simpl.
  - destruct b as [|x b]; [reflexivity|]. simpl. rewrite Hb. reflexivity.
  - rewrite Px, IH. reflexivity.
Qed.

(** A greedy star ends at the longest run when no shorter run lets the
    rest of the pattern match where the longest one does not. *)
Lemma star_longest (p : ascii -> bool) (k : list ascii -> option found)
  (s a b : list ascii) :
  span p s = (a, b) ->
  (forall a1 x a2, a = a1 ++ x :: a2 -> k (x :: a2 ++ b) = None) ->
  star p s k = k b.
Proof.
  revert a. induction s as [|c s IH]; simpl; intros a H Hk.
  - injection H as <- <-. reflexivity.
  - destruct (p c) eqn:Pc.
    + destruct (span p s) as [a' b'] eqn:E. injection H as <- <-.
      rewrite (IH a' eq_refl).
      * destruct (k b') as [r|] eqn:Kb; [reflexivity|].
        destruct (span_spec _ _ E) as [-> _].
        apply (Hk [] c a'). reflexivity.
      * intros a1 x a2 ->. apply (Hk (c :: a1) x a2). reflexivity.
    + injection H as <- <-. reflexivity.
Qed.

(** A greedy star followed by something that matches only at a hyphen,
    and with one result wherever the hyphen is in the run. *)
Lemma star_hyphen (p h : ascii -> bool) (k : list ascii -> option found)
  (v : option found) (s a b : list ascii) :
  span p s = (a, b) ->
  k b = None ->
  (forall a1 x a2, a = a1 ++ x :: a2 ->
                   k (x :: a2 ++ b) = if h x then v else None) ->
  star p s k = if existsb h a then v else None.
Proof.
  revert a. induction s as [|c s IH]; simpl; intros a H Kb Hk.
  - injection H as <- <-. exact Kb.
  - destruct (p c) eqn:Pc.
    + destruct (span p s) as [a' b'] eqn:E. injection H as <- <-.
      rewrite (IH a' eq_refl Kb).
      * destruct (span_spec _ _ E) as [-> _].
        rewrite (Hk [] c a' eq_refl). simpl.
        destruct (existsb h a'), (h c), v; reflexivity.
      * intros a1 x a2 ->. apply (Hk (c :: a1) x a2). reflexivity.
    + injection H as <- <-. exact Kb.
Qed.

Lemma star_greedy (p : ascii -> bool) (k : list ascii -> option found)
  (r : found) (s a b : list ascii) :
  span p s = (a, b) -> k b = Some r -> star p s k = Some r.
Proof.
  revert a. induction s as [|c s IH]; simpl; intros a H Kb.
  - injection H as <- <-. exact Kb.
  - destruct (p c) eqn:Pc.
    + destruct (span p s) as [a' b'] eqn:E. injection H as <- <-.
      rewrite (IH a' eq_refl Kb). reflexivity.
    + injection H as <- <-. exact Kb.
Qed.

Lemma digit_is_word (c : ascii) : is_digit c = true -> is_nonword c = false.
Proof.
  intros H. unfold is_nonword, is_word. rewrite H, orb_true_r. reflexivity.
Qed.

Lemma nonword_not_digit (c : ascii) :
  is_nonword c = true -> is_digit c = false.
Proof.
  intros H. destruct (is_digit c) eqn:D; [|reflexivity].
  rewrite (digit_is_word c D) in H. discriminate.
Qed.

Lemma lit_spec (c x : ascii) : lit c x = true <-> x = c.
Proof.
  unfold lit. destruct (Ascii.eqb_spec c x); split; congruence.
Qed.

Lemma hyphen_is_nonword (c : ascii) :
  lit "-" c = true -> is_nonword c = true.
Proof. intros H. apply lit_spec in H. subst c. reflexivity. Qed.

Lemma word_not_hyphen (c : ascii) :
  is_nonword c = false -> lit "-" c = false.
Proof.
  intros H. destruct (lit "-" c) eqn:E; [|reflexivity].
  rewrite (hyphen_is_nonword c E) in H. discriminate.
Qed.

Lemma digit_not_lit (c x : ascii) :
  is_digit c = false -> is_digit x = true -> lit c x = false.
Proof.
  intros Hc Hx. destruct (lit c x) eqn:E; [|reflexivity].
  apply lit_spec in E. congruence.
Qed.

Lemma firstn_consumed (A : Type) (a b : list A) :
  firstn (length (a ++ b) - length b) (a ++ b) = a.
Proof.
  rewrite length_app, Nat.add_sub. rewrite firstn_app, Nat.sub_diag.
  rewrite firstn_all, firstn_O, app_nil_r. reflexivity.
Qed.

(** [\W*] at the end of the pattern. *)
Lemma run_tail (s : list ascii) (caps : captures) :
  run (Star is_nonword) s caps Re.accept =
  let (_, r4) := span is_nonword s in Some (caps, r4).
Proof.
  cbn [run]. destruct (span is_nonword s) as [tail r4] eqn:E.
  apply star_greedy with tail r4; [exact E | reflexivity].
Qed.

(** [(\d+)\W*] *)
Lemma run_page_and_tail (s : list ascii) (caps : captures) :
  run (Cat (Group (Plus is_digit)) (Star is_nonword)) s caps Re.accept =
  page_and_tail s caps.
Proof.
  unfold page_and_tail, Plus. cbn [run].
  destruct s as [|c s]; [reflexivity|]. cbn [span].
  destruct (is_digit c) eqn:Dc; [|reflexivity].
  destruct (span is_digit s) as [ds r3] eqn:E.
  destruct (span_spec _ _ E) as [-> _].
  destruct (span is_nonword r3) as [tail r4] eqn:Et.
  apply star_greedy with ds r3; [exact E|].
  change (c :: ds ++ r3) with ((c :: ds) ++ r3). rewrite firstn_consumed.
  apply star_greedy with tail r4; [exact Et | reflexivity].
Qed.

(** [\W*(\d+)\W*] after the hyphen: the run of [\W] is the longest one. *)
Lemma run_after_hyphen (s : list ascii) (caps : captures) :
  run (Cat (Star is_nonword)
         (Cat (Group (Plus is_digit)) (Star is_nonword))) s caps Re.accept =
  let (_, r2) := span is_nonword s in page_and_tail r2 caps.
Proof.
  cbn [run]. destruct (span is_nonword s) as [sep r2] eqn:E.
  rewrite star_longest with (a := sep) (b := r2); [|exact E|].
  - apply (run_page_and_tail r2 caps).
  - intros a1 x a2 ->. destruct (span_spec _ _ E) as [_ Hsep].
    apply Forall_app in Hsep. destruct Hsep as [_ Hsep].
    inversion Hsep as [|? ? Hx _]; subst.
    change (run (Cat (Group (Plus is_digit)) (Star is_nonword))
              (x :: a2 ++ r2) caps Re.accept = None).
    rewrite run_page_and_tail. unfold page_and_tail. cbn [span].
    rewrite (nonword_not_digit x Hx). reflexivity.
Qed.

(** [\W*\-\W*(\d+)\W*] *)
Lemma run_separator (s : list ascii) (caps : captures) :
  run (Cat (Star is_nonword)
         (Cat (Class (lit "-"))
            (Cat (Star is_nonword)
               (Cat (Group (Plus is_digit)) (Star is_nonword)))))
    s caps Re.accept =
  separator_on s caps.
Proof.
  unfold separator_on. cbn [run].
  destruct (span is_nonword s) as [sep r2] eqn:E.
  pose proof (span_rest _ _ E) as Hr2.
  destruct (span_spec _ _ E) as [_ Hsep].
  apply star_hyphen with (b := r2); [exact E | |].
  - destruct r2 as [|x r2]; [reflexivity|].
    rewrite (word_not_hyphen x Hr2). reflexivity.
  - intros a1 x a2 ->. destruct (lit "-" x); [|reflexivity].
    change (run (Cat (Star is_nonword)
                   (Cat (Group (Plus is_digit)) (Star is_nonword)))
              (a2 ++ r2) caps Re.accept = page_and_tail r2 caps).
    rewrite run_after_hyphen. rewrite span_app; [reflexivity | | exact Hr2].
    apply Forall_app in Hsep. destruct Hsep as [_ Hsep].
    inversion Hsep; assumption.
Qed.

(** The whole pattern: backtracking finds what the direct reading finds. *)
Lemma run_label_pattern (dollar : bool) (s : list ascii) :
  run (label_pattern dollar) s [] Re.accept = direct_label dollar s.
Proof.
  unfold Re.label_pattern, direct_label, chapter_token.
  set (REST := Cat (Star is_nonword) _).
  assert (Hrest : forall s' caps,
             run REST s' caps Re.accept = separator_on s' caps)
    by (intros; apply run_separator).
  destruct s as [|c s].
  - destruct dollar; reflexivity.
  - destruct (is_digit c) eqn:Dc.
    + destruct (span is_digit (c :: s)) as [first r1] eqn:E.
      assert (Hplus : forall k, 
                 (forall x r cs, is_digit x = true -> k (x :: r) cs = None) ->
                 run (Plus is_digit) (c :: s) [] k = k r1 []).
      { intros k Hk. unfold Plus. cbn [run]. rewrite Dc.
        cbn [span] in E. rewrite Dc in E.
        destruct (span is_digit s) as [ds r] eqn:Es. injection E as <- <-.
        apply (@star_longest is_digit (fun s' => k s' []) s ds r Es).
        intros a1 x a2 ->. apply Hk.
        destruct (span_spec _ _ Es) as [_ Hds].
        apply Forall_app in Hds. destruct Hds as [_ Hds].
        inversion Hds; assumption. }
      assert (Hk : forall x r cs,
                 is_digit x = true ->
                 run REST (x :: r)
                   (cs ++ [firstn (length (c :: s) - length (x :: r)) (c :: s)])
                   Re.accept = None).
      { intros x r cs Dx. rewrite Hrest. unfold separator_on. cbn [span].
        rewrite (digit_is_word x Dx). reflexivity. }
      assert (Hfirst : firstn (length (c :: s) - length r1) (c :: s) = first).
      { destruct (span_spec _ _ E) as [-> _]. apply firstn_consumed. }
      assert (HS : lit "S" c = false) by (apply digit_not_lit; auto).
      assert (HD : lit "$" c = false) by (apply digit_not_lit; auto).
      destruct dollar; cbn [run]; fold (Plus is_digit);
        rewrite (Hplus _ Hk), Hfirst, Hrest, HS, ?HD; cbn [app];
        destruct (separator_on r1 [first]); reflexivity.
    + assert (Hfirst : firstn (length (c :: s) - length s) (c :: s) = [c]).
      { apply (firstn_consumed [c] s). }
      destruct dollar; unfold Plus; cbn [run]; rewrite Dc, Hfirst, !Hrest;
        cbn [orb andb app].
      * destruct (lit "S" c) eqn:ES; cbn [orb].
        -- assert (HD : lit "$" c = false).
           { apply lit_spec in ES. subst c. reflexivity. }
           rewrite HD. cbn [orb]. cbv iota beta.
           destruct (separator_on s [[c]]); reflexivity.
        -- destruct (lit "$" c); reflexivity.
      * rewrite orb_false_r. destruct (lit "S" c); reflexivity.
Qed.

Lemma chapter_token_spec (dollar : bool) (s fs r : list ascii) :
  chapter_token dollar s = Some (fs, r) ->
  (fs <> [] /\ Forall (fun c => is_digit c = true) fs)
  \/ fs = ["S"%char]
  \/ (dollar = true /\ fs = ["$"%char]).
Proof.
  unfold chapter_token. destruct s as [|c s]; [discriminate|].
  destruct (is_digit c) eqn:Dc.
  - intros H.
    assert (E : span is_digit (c :: s) = (fs, r)) by (injection H; auto).
    left. destruct (span_spec _ _ E) as [_ Hfs]. split; [|exact Hfs].
    cbn [span] in E. rewrite Dc in E. destruct (span is_digit s).
    injection E as <- _. discriminate.
  - destruct (lit "S" c) eqn:ES; cbn [orb].
    + intros H. injection H as <- _. right. left.
      apply lit_spec in ES. rewrite ES. reflexivity.
    + destruct dollar; cbn [andb]; [|discriminate].
      destruct (lit "$" c) eqn:ED; [|discriminate].
      intros H. injection H as <- _. right. right.
      apply lit_spec in ED. rewrite ED. auto.
Qed.

Lemma match_label_spec (dollar : bool) (s : list ascii)
  (g : string * string) (n : nat) :
  Re.match_label dollar s = Some (g, n) -> groups_ok dollar g.
Proof.
  unfold Re.match_label. rewrite run_label_pattern. unfold direct_label.
  destruct (chapter_token dollar s) as [[fs r1]|] eqn:Et; [|discriminate].
  unfold separator_on. destruct (span is_nonword r1) as [sep r2].
  destruct (existsb (lit "-") sep); [|discriminate].
  unfold page_and_tail. destruct (span is_digit r2) as [second r3] eqn:Es.
  destruct second as [|d ds] eqn:Ed; [discriminate|].
  destruct (span is_nonword r3) as [tail r4]. cbn [app].
  intros H. injection H as <- _. unfold groups_ok. cbn [fst snd].
  split.
  - destruct (chapter_token_spec _ _ Et) as [[Hne Hfs] | [-> | [-> ->]]].
    + left. exists fs. auto.
    + right. left. reflexivity.
    + right. right. auto.
  - exists (d :: ds). split; [reflexivity|]. split; [discriminate|].
    apply (span_spec _ _ Es).
Qed.

Lemma findall_from_ok (dollar : bool) (s : list ascii) (skip : nat) :
  Forall (groups_ok dollar) (Re.findall_from dollar skip s).
Proof.
  revert skip. induction s as [|c s IH]; intros skip.
  - constructor.
  - cbn [Re.findall_from]. destruct skip as [|k]; [|apply IH].
    destruct (Re.match_label dollar (c :: s)) as [[g n]|] eqn:E; [|apply IH].
    constructor; [eapply match_label_spec, E | apply IH].
Qed.

(** The matcher on some texts, with what Python's [findall] gives. *)
Example findall_samples :
  map (Re.findall true)
    ["ab 12 - 3 x S--4; $-5 0-0"; "1-2 $-3"; "1-2-3"; "12a 3-4"; "S_-3";
     "$$-3"; "3 - - 4"; "3-"; "-3"; "SS-1"; "1-2a3-4"]%string
  = [ [("12", "3"); ("S", "4"); ("0", "0")]; [("1", "2")]; [("1", "2")];
      [("3", "4")]; []; [("$", "3")]; [("3", "4")]; []; []; [("S", "1")];
      [("1", "2"); ("3", "4")] ]%string
  /\ Re.findall false "$-3 S - 14" = [("S", "14")]%string.
Proof. split; vm_compute; reflexivity. Qed.

Example int_str_samples :
  map int_str
    [" -1_000 "; "1__0"; "_1"; "1_"; "+"; "+-5"; "0_0"; "007"]%string
  = [Ok (-1000); Raise ValueError; Raise ValueError; Raise ValueError;
     Raise ValueError; Raise ValueError; Ok 0; Ok 7]
  /\ int_str EmptyString = Raise ValueError.
Proof. split; vm_compute; reflexivity. Qed.

(** [int()] takes 4300 digits and refuses 4301, leading zeros counted and
    underscores not. *)
Example int_str_limit :
  (exists z, int_str (repeat_char "9" 4300) = Ok z)
  /\ int_str (repeat_char "9" 4301) = Raise ValueError
  /\ int_str (repeat_char "0" 4301) = Raise ValueError
  /\ (exists z,
        int_str (String.append "1_" (repeat_char "9" 4299)) = Ok z).
Proof.
  split; [|split; [|split]].
  - destruct (int_str (repeat_char "9" 4300)) as [z|e] eqn:E.
    + exists z. reflexivity.
    + exfalso. revert E. vm_compute. discriminate.
  - vm_compute. reflexivity.
  - vm_compute. reflexivity.
  - destruct (int_str (String.append "1_" (repeat_char "9" 4299)))
      as [z|e] eqn:E.
    + exists z. reflexivity.
    + exfalso. revert E. vm_compute. discriminate.
Qed.

Lemma last_opt_in (A : Type) (l : list A) (x : A) :
  last_opt l = Some x -> In x l.
Proof.
  induction l as [|y l IH]; [discriminate|].
  destruct l as [|y' l].
  - intros H. injection H as ->. left. reflexivity.
  - intros H. right. apply IH, H.
Qed.

(** The last match, when there is one, has groups that [int()] reads. *)
Lemma last_match_ok (dollar : bool) (text first second : string) :
  last_opt (Re.findall dollar text) = Some (first, second) ->
  groups_ok dollar (first, second).
Proof.
  intros H. apply last_opt_in in H.
  pose proof (findall_from_ok dollar (list_ascii_of_string text) 0) as Hall.
  rewrite Forall_forall in Hall. apply Hall, H.
Qed.

(** * Scrambler: the classification passes *)

Module ClassifierSpec.
Import Scrambler.

(** What [initial_page] returns, when it returns. *)
Lemma initial_page_spec (i : Z) (text : string) (p : Page) :
  initial_page i text = Ok p -> entry_of (i, text) p /\ label_nonneg p.
Proof.
  unfold initial_page, entry_of, label_nonneg. cbn [fst snd].
  destruct (last_opt (Re.findall true text)) as [[first second]|] eqn:E.
  2: { intros H. injection H as <-. cbn [index failed]. split; [auto|].
       discriminate. }
  destruct (last_match_ok _ _ E) as [Hfirst Hsecond]. cbn [fst snd] in *.
  destruct Hfirst as [Hd | [-> | [_ ->]]].
  - rewrite (@digits_not_letter first "S"%char Hd eq_refl).
    rewrite (@digits_not_letter first "$"%char Hd eq_refl). cbn [orb].
    destruct (int_str first) as [z1|] eqn:E1; cbn [bind]; [|discriminate].
    destruct (int_str second) as [z2|] eqn:E2; cbn [bind]; [|discriminate].
    intros H. injection H as <-. cbn [index failed chapter chapter_page].
    destruct (int_str_digits_ok Hd E1) as [Hz1 _].
    destruct (int_str_digits_ok Hsecond E2) as [Hz2 _].
    split; [|auto]. split; [reflexivity|]. split; [reflexivity|].
    split; [reflexivity|]. right. split.
    + split; intros ->.
      * discriminate (@digits_not_letter "S"%string "S"%char Hd eq_refl).
      * discriminate (@digits_not_letter "$"%string "$"%char Hd eq_refl).
    + exists z1. auto.
  - rewrite String.eqb_refl. cbn [orb bind].
    destruct (int_str second) as [z2|] eqn:E2; cbn [bind]; [|discriminate].
    intros H. injection H as <-. cbn [index failed chapter chapter_page].
    destruct (int_str_digits_ok Hsecond E2) as [Hz2 _].
    split; [|auto]. split; [reflexivity|]. split; [reflexivity|].
    split; [reflexivity|]. left. auto.
  - change (String.eqb "$" "S") with false. rewrite String.eqb_refl.
    cbn [orb bind].
    destruct (int_str second) as [z2|] eqn:E2; cbn [bind]; [|discriminate].
    intros H. injection H as <-. cbn [index failed chapter chapter_page].
    destruct (int_str_digits_ok Hsecond E2) as [Hz2 _].
    split; [|auto]. split; [reflexivity|]. split; [reflexivity|].
    split; [reflexivity|]. left. auto.
Qed.

(** [initial_page] returns on a text that [int()] can read, and raises
    [ValueError] on the others. *)
Lemma initial_page_cases (i : Z) (text : string) :
  (readable true text /\ exists p, initial_page i text = Ok p)
  \/ (~ readable true text /\ initial_page i text = Raise ValueError).
Proof.
  unfold initial_page, readable.
  destruct (last_opt (Re.findall true text)) as [[first second]|] eqn:E.
  2: { left. split; [exact I | eexists; reflexivity]. }
  destruct (last_match_ok _ _ E) as [Hfirst Hsecond]. cbn [fst snd] in *.
  destruct (int_str_digits_cases Hsecond) as (z2 & _ & E2). rewrite E2.
  assert (Hchapter :
            (Z.of_nat (String.length first) <= max_str_digits
             /\ exists ch,
                 (if String.eqb first "S" || String.eqb first "$"
                  then Ok ChS
                  else z <- int_str first ;; Ok (ChInt z)) = Ok ch)
            \/ (max_str_digits < Z.of_nat (String.length first)
                /\ (if String.eqb first "S" || String.eqb first "$"
                    then Ok ChS
                    else z <- int_str first ;; Ok (ChInt z))
                   = Raise ValueError)).
  { destruct Hfirst as [Hd | [-> | [_ ->]]].
    - rewrite (@digits_not_letter first "S"%char Hd eq_refl).
      rewrite (@digits_not_letter first "$"%char Hd eq_refl). cbn [orb].
      destruct (int_str_digits_cases Hd) as (z1 & _ & E1). rewrite E1.
      destruct (Z.ltb_spec max_str_digits (Z.of_nat (String.length first)));
        cbn [bind]; [right | left]; split; try lia; try reflexivity.
      eexists. reflexivity.
    - left. split; [unfold max_str_digits; cbn; lia|].
      eexists. reflexivity.
    - left. split; [unfold max_str_digits; cbn; lia|].
      eexists. reflexivity. }
  destruct Hchapter as [[Hl1 [ch ->]] | [Hl1 ->]]; cbn [bind].
  - destruct (Z.ltb_spec max_str_digits (Z.of_nat (String.length second)));
      cbn [bind]; [right | left]; split; try lia; try reflexivity.
    eexists. reflexivity.
  - right. split; [lia | reflexivity].
Qed.

Lemma create_loop_spec (doc : list page_text) (i : Z)
  (init_pages result : list Page) :
  create_loop i doc init_pages = Ok result ->
  exists pages,
    result = init_pages ++ pages
    /\ Forall2 entry_of (texts_from i doc) pages
    /\ Forall label_nonneg pages.
Proof.
  revert i init_pages. induction doc as [|[text|] doc IH];
    intros i init_pages; cbn [create_loop texts_from].
  - intros H. injection H as <-. exists [].
    rewrite app_nil_r. repeat split; constructor.
  - destruct (initial_page i text) as [p|e] eqn:Ep; cbn [bind];
      [|discriminate].
    destruct (initial_page_spec _ _ Ep) as [Hp Hn].
    intros H. destruct (IH _ _ H) as (pages & -> & Hf & Hl).
    exists (p :: pages). rewrite <- app_assoc. split; [reflexivity|].
    split; constructor; assumption.
  - apply IH.
Qed.

Lemma create_loop_total (doc : list page_text) (i : Z)
  (init_pages : list Page) :
  Forall (readable true) (map snd (texts_from i doc)) ->
  exists result, create_loop i doc init_pages = Ok result.
Proof.
  revert i init_pages. induction doc as [|[text|] doc IH];
    intros i init_pages; cbn [create_loop texts_from map snd].
  - intros _. eexists. reflexivity.
  - intros H. inversion H as [|? ? Hr Hrest]; subst.
    destruct (initial_page_cases i text) as [[_ [p ->]] | [Hn _]];
      [|contradiction].
    cbn [bind]. apply IH, Hrest.
  - apply IH.
Qed.


(** What a round of the OCR pass returns, when it returns. *)
Lemma ocr_page_spec (ocr : Z -> result string) (p p' : Page) :
  ocr_page ocr p = Ok p' ->
  ocr_result ocr p p' /\ (label_nonneg p -> label_nonneg p').
Proof.
  unfold ocr_page, ocr_result, label_nonneg.
  destruct (failed p) eqn:F; cbn [negb].
  2: { intros H. injection H as <-. split; [split; reflexivity | auto]. }
  destruct (ocr (index p)) as [text|e] eqn:Et; cbn [bind]; [|discriminate].
  cbv zeta.
  destruct (last_opt (Re.findall false text)) as [[first second]|] eqn:E.
  2: { intros H. injection H as <-. split; [|intros _ F'; congruence].
       split; [reflexivity|]. exists text. rewrite E. auto. }
  destruct (last_match_ok _ _ E) as [Hfirst Hsecond]. cbn [fst snd] in *.
  destruct Hfirst as [Hd | [-> | [Hf _]]]; [| |discriminate].
  - rewrite (@digits_not_letter first "S"%char Hd eq_refl).
    destruct (int_str first) as [z1|] eqn:E1; cbn [bind]; [|discriminate].
    destruct (int_str second) as [z2|] eqn:E2; cbn [bind]; [|discriminate].
    intros H. injection H as <-. cbn [index failed chapter chapter_page].
    destruct (int_str_digits_ok Hd E1) as [Hz1 _].
    destruct (int_str_digits_ok Hsecond E2) as [Hz2 _].
    split; [|auto]. split; [reflexivity|]. exists text. rewrite E.
    split; [reflexivity|]. split; [reflexivity|]. split; [exact E2|].
    right. split.
    + intros ->.
      discriminate (@digits_not_letter "S"%string "S"%char Hd eq_refl).
    + exists z1. auto.
  - rewrite String.eqb_refl. cbn [bind].
    destruct (int_str second) as [z2|] eqn:E2; cbn [bind]; [|discriminate].
    intros H. injection H as <-. cbn [index failed chapter chapter_page].
    destruct (int_str_digits_ok Hsecond E2) as [Hz2 _].
    split; [|auto]. split; [reflexivity|]. exists text. rewrite E.
    split; [reflexivity|]. split; [reflexivity|]. split; [exact E2|].
    left. auto.
Qed.

Lemma ocr_loop_spec (ocr : Z -> result string) (init_pages pages : list Page) :
  ocr_loop ocr init_pages = Ok pages ->
  Forall2 (ocr_result ocr) init_pages pages
  /\ (Forall label_nonneg init_pages -> Forall label_nonneg pages).
Proof.
  revert pages. induction init_pages as [|p rest IH]; intros pages;
    cbn [ocr_loop].
  - intros H. injection H as <-. split; [constructor | auto].
  - destruct (ocr_page ocr p) as [p'|e] eqn:Ep; cbn [bind]; [|discriminate].
    destruct (ocr_loop ocr rest) as [rest'|e]; cbn [bind]; [|discriminate].
    intros H. injection H as <-.
    destruct (ocr_page_spec _ _ Ep) as [Hr Hn].
    destruct (IH rest' eq_refl) as [Hf Hl]. split.
    + constructor; assumption.
    + intros Hall. inversion Hall; subst. constructor; auto.
Qed.

Lemma ocr_failed_pages_spec (HAS_OCR : bool) (ocr : Z -> result string)
  (init_pages pages : list Page) :
  _ocr_failed_pages HAS_OCR ocr init_pages = Ok pages ->
  (if HAS_OCR then Forall2 (ocr_result ocr) init_pages pages
   else pages = init_pages)
  /\ map index pages = map index init_pages
  /\ (Forall label_nonneg init_pages -> Forall label_nonneg pages).
Proof.
  unfold _ocr_failed_pages. destruct HAS_OCR; cbn [negb].
  - intros H. destruct (ocr_loop_spec _ _ H) as [Hf Hl].
    split; [exact Hf|]. split; [|exact Hl].
    clear - Hf. induction Hf as [|p p' l l' [Hi _] _ IH]; cbn [map].
    + reflexivity.
    + rewrite Hi, IH. reflexivity.
  - intros H. injection H as <-. auto.
Qed.

(** *** The manual adjustments *)

Lemma update_page_index (init_pages : list Page) (page_index : Z)
  (new : Page) :
  index new = page_index ->
  map index (update_page init_pages page_index new) = map index init_pages.
Proof.
  intros Hn. induction init_pages as [|page_el rest IH]; cbn [update_page].
  - reflexivity.
  - destruct (Z.eqb_spec (index page_el) page_index) as [E|_]; cbn [map].
    + rewrite Hn, E. reflexivity.
    + rewrite IH. reflexivity.
Qed.

Lemma update_page_in (init_pages : list Page) (page_index : Z) (new : Page) :
  In page_index (map index init_pages) ->
  In new (update_page init_pages page_index new).
Proof.
  induction init_pages as [|page_el rest IH]; cbn [update_page map].
  - intros [].
  - destruct (Z.eqb_spec (index page_el) page_index) as [E|Hne].
    + intros _. left. reflexivity.
    + intros [H | H]; [contradiction|]. right. apply IH, H.
Qed.

Lemma update_page_absent (init_pages : list Page) (page_index : Z)
  (new : Page) :
  ~ In page_index (map index init_pages) ->
  update_page init_pages page_index new = init_pages.
Proof.
  induction init_pages as [|page_el rest IH]; cbn [update_page map].
  - reflexivity.
  - intros H. destruct (Z.eqb_spec (index page_el) page_index) as [E|_].
    + exfalso. apply H. left. exact E.
    + rewrite IH; [reflexivity|]. intros Hin. apply H. right. exact Hin.
Qed.

Lemma adjust_entry_index (init_pages pages : list Page) (a : adjustment) :
  adjust_entry init_pages a = Ok pages ->
  map index pages = map index init_pages.
Proof.
  destruct a as [key [chapter0 cp]]. unfold adjust_entry.
  destruct (int_str key) as [k|]; cbn [bind]; [|discriminate].
  destruct (convert_chapter chapter0) as [ch|]; cbn [bind]; [|discriminate].
  intros H. injection H as <-. apply update_page_index. reflexivity.
Qed.

(** An entry whose key names no page of the list changes nothing. *)
Lemma adjust_entry_absent (init_pages : list Page) (key : string) (n : Z)
  (c : jval) (ch : chapter_t) (cp : Z) :
  int_str key = Ok n -> convert_chapter c = Ok ch ->
  ~ In (n - 1) (map index init_pages) ->
  adjust_entry init_pages (key, (c, cp)) = Ok init_pages.
Proof.
  intros Hk Hc Hn. unfold adjust_entry. rewrite Hk, Hc. cbn [bind].
  rewrite update_page_absent by exact Hn. reflexivity.
Qed.

Lemma manual_adjustments_skip (adj1 adj2 : list adjustment)
  (init_pages : list Page) (key : string) (n : Z) (c : jval)
  (ch : chapter_t) (cp : Z) :
  int_str key = Ok n -> convert_chapter c = Ok ch ->
  ~ In (n - 1) (map index init_pages) ->
  _manual_page_adjustments (adj1 ++ (key, (c, cp)) :: adj2) init_pages =
  _manual_page_adjustments (adj1 ++ adj2) init_pages.
Proof.
  intros Hk Hc. revert init_pages.
  induction adj1 as [|a adj1 IH]; intros init_pages Hn;
    cbn [app _manual_page_adjustments].
  - rewrite (@adjust_entry_absent init_pages key n c ch cp Hk Hc Hn).
    reflexivity.
  - destruct (adjust_entry init_pages a) as [pages|e] eqn:E; [|reflexivity].
    apply IH. rewrite (@adjust_entry_index init_pages pages a E). exact Hn.
Qed.





(** C8 (as amended): when the text pass returns, and when the OCR pass
    returns, a Classified page of what they return has a chapter that is
    the Supplement or a number from zero on, and a chapter page from zero
    on.  A manual adjustment whose key names a page of the list puts in
    its place the chapter and the chapter page of the mapping, whatever
    numbers they are. *)
Theorem classified_labels (doc : list page_text) (HAS_OCR : bool)
  (ocr : Z -> result string) (p0 p1 init_pages : list Page) (key : string)
  (k z cp : Z) :
  (_create_initial_page_list doc = Ok p0 ->
   _ocr_failed_pages HAS_OCR ocr p0 = Ok p1 ->
   Forall label_nonneg p0 /\ Forall label_nonneg p1)
  /\ (int_str key = Ok k -> In (k - 1) (map index init_pages) ->
      exists pages,
        adjust_entry init_pages (key, (JInt z, cp)) = Ok pages
        /\ In (mkPage (k - 1) false (ChInt z) cp) pages).
Proof.
  split.
  - unfold _create_initial_page_list. intros E0 E1.
    destruct (create_loop_spec _ _ _ E0) as (pages & -> & _ & H0).
    cbn [app] in *. split; [exact H0|].
    destruct (ocr_failed_pages_spec _ _ _ E1) as (_ & _ & H1).
    apply H1, H0.
  - intros Hk Hin. unfold adjust_entry. rewrite Hk. cbn [convert_chapter bind].
    eexists. split; [reflexivity|]. apply update_page_in, Hin.
Qed.

Lemma classified_labels_witness :
  (Forall label_nonneg
     [mkPage 0 false (ChInt 0) 0; mkPage 1 true (ChInt 0) 0]
   /\ Forall label_nonneg
        [mkPage 0 false (ChInt 0) 0; mkPage 1 false ChS 12])
  /\ exists pages,
       adjust_entry [mkPage 0 true (ChInt 0) 0; mkPage 1 false ChS 4]
         ("2"%string, (JInt (-3), -7)) = Ok pages
       /\ In (mkPage (2 - 1) false (ChInt (-3)) (-7)) pages.
Proof.
  pose proof (@classified_labels
                [Text "0-0"; Text "x"] true (fun _ => Ok "S -12"%string)
                [mkPage 0 false (ChInt 0) 0; mkPage 1 true (ChInt 0) 0]
                [mkPage 0 false (ChInt 0) 0; mkPage 1 false ChS 12]
                [mkPage 0 true (ChInt 0) 0; mkPage 1 false ChS 4]
                "2"%string 2 (-3) (-7)) as [H1 H2].
  split.
  - apply H1; vm_compute; reflexivity.
  - apply H2; [vm_compute; reflexivity | simpl; auto].
Defined.

(** C8 as stated fails: the text ["0-0"] classifies its page with chapter
    0 and chapter page 0, which are not positive. *)
Lemma zero_label_classified :
  exists p, _create_initial_page_list [Text "0-0"] = Ok [p]
            /\ failed p = false /\ ~ label_positive p.
Proof.
  exists (mkPage 0 false (ChInt 0) 0).
  split; [vm_compute; reflexivity|]. split; [reflexivity|].
  unfold label_positive. cbn. intros H. specialize (H eq_refl). lia.
Qed.

End ClassifierSpec.

(** * Both programs *)

Import Scrambler ManualScrambler.

(** C2: whatever the classification of the pages numbered from 0 to
    [page_count - 1], the pages that [_rearrange_page_list] lists are
    those pages, each once; and with a move set that [rearrange] accepts
    the order is the pages from 1 to [page_count], each once, at the end
    of every round of the move loop and when [rearrange] returns it, which
    it does with the order of the last round. *)
Theorem orders_are_permutations (page_count : Z) (init_pages : list Page)
  (raw : list (string * jval)) (moves : list (Z * Z)) :
  map Scrambler.index init_pages = range 0 page_count ->
  normalize_loop page_count raw [] = Ok moves ->
  let out := map Scrambler.index (_rearrange_page_list init_pages) in
  let order := range 1 (page_count + 1) in
  (Permutation (range 0 page_count) out /\ NoDup out)
  /\ Forall (fun o => Permutation order o /\ NoDup o)
       (orders_after (sort_moves moves) order)
  /\ exists final,
       rearrange page_count raw = Ok final
       /\ final = last (orders_after (sort_moves moves) order) order
       /\ Permutation order final /\ NoDup final.
Proof.
  intros Hidx Hn. cbv zeta.
  assert (Hout : Permutation (range 0 page_count)
                   (map Scrambler.index (_rearrange_page_list init_pages))).
  { rewrite <- Hidx. apply Permutation_map, ScramblerSpec.rearrange_perm. }
  split; [|split].
  - split; [exact Hout|].
    apply (Permutation_NoDup Hout), range_nodup.
  - eapply Forall_impl; [|apply ManualScramblerSpec.orders_after_perm].
    cbv beta. intros o Ho. split; [exact Ho|].
    apply (Permutation_NoDup Ho), range_nodup.
  - eexists. split; [apply ManualScramblerSpec.rearrange_ok, Hn|].
    split; [apply ManualScramblerSpec.apply_moves_last|].
    pose proof (ManualScramblerSpec.apply_moves_perm (sort_moves moves)
                  (range 1 (page_count + 1))) as Hp.
    split; [exact Hp|]. apply (Permutation_NoDup Hp), range_nodup.
Qed.

Lemma orders_are_permutations_witness :
  let out := map Scrambler.index
               (_rearrange_page_list
                  [mkPage 0 true (ChInt 0) 0; mkPage 1 false ChS 1;
                   mkPage 2 false (ChInt 7) 1]) in
  let order := range 1 (3 + 1) in
  (Permutation (range 0 3) out /\ NoDup out)
  /\ Forall (fun o => Permutation order o /\ NoDup o)
       (orders_after (sort_moves [(3, 1); (1, 2)]) order)
  /\ exists final,
       rearrange 3 [("3"%string, JInt 1); ("1"%string, JInt 2)] = Ok final
       /\ final = last (orders_after (sort_moves [(3, 1); (1, 2)]) order) order
       /\ Permutation order final /\ NoDup final.
Proof.
  apply (@orders_are_permutations 3
           [mkPage 0 true (ChInt 0) 0; mkPage 1 false ChS 1;
            mkPage 2 false (ChInt 7) 1]
           [("3"%string, JInt 1); ("1"%string, JInt 2)] [(3, 1); (1, 2)]).
  - reflexivity.
  - vm_compute. reflexivity.
Defined.

(** C4 (as amended): when an entry of the move set has a source or an
    anchor outside [1 .. page_count], [rearrange] ends with [ValueError]
    in the loop that normalises the moves, before there is an order.
    [_manual_page_adjustments] checks no range: an entry whose key is
    outside [1 .. page_count] names no page, and the method does what it
    does without that entry. *)
Theorem page_range_checks (page_count : Z) (raw : list (string * jval))
  (k : string) (v : jval) (init_pages : list Page)
  (adj1 adj2 : list adjustment) (key : string) (n : Z) (c : jval)
  (ch : chapter_t) (cp : Z) :
  (In (k, v) raw ->
   (exists s, int_str k = Ok s /\ ~ 1 <= s <= page_count) \/
   (exists a, int_jval v = Ok a /\ ~ 1 <= a <= page_count) ->
   normalize_loop page_count raw [] = Raise ValueError
   /\ rearrange page_count raw = Raise ValueError)
  /\ (Forall (fun p => 0 <= Scrambler.index p < page_count) init_pages ->
      int_str key = Ok n -> ~ 1 <= n <= page_count ->
      convert_chapter c = Ok ch ->
      _manual_page_adjustments (adj1 ++ (key, (c, cp)) :: adj2) init_pages =
      _manual_page_adjustments (adj1 ++ adj2) init_pages).
Proof.
  split.
  - intros Hin Hbad.
    pose proof (@ManualScramblerSpec.normalize_loop_rejects
                  page_count raw [] k v Hin Hbad) as E.
    split; [exact E|]. unfold rearrange. rewrite E. reflexivity.
  - intros Hall Hk Hn Hc.
    apply ClassifierSpec.manual_adjustments_skip with n ch; try assumption.
    rewrite in_map_iff. intros [p [Hp Hin]].
    rewrite Forall_forall in Hall. specialize (Hall p Hin). lia.
Qed.

Lemma page_range_checks_witness :
  (normalize_loop 3 [("2"%string, JInt 1); ("3"%string, JStr "4")] []
   = Raise ValueError
   /\ rearrange 3 [("2"%string, JInt 1); ("3"%string, JStr "4")]
      = Raise ValueError)
  /\ _manual_page_adjustments
       ([("1"%string, (JInt 5, 1))] ++ ("9"%string, (JStr "S", 2)) :: [])
       [mkPage 0 true (ChInt 0) 0; mkPage 1 false ChS 4]
     = _manual_page_adjustments ([("1"%string, (JInt 5, 1))] ++ [])
         [mkPage 0 true (ChInt 0) 0; mkPage 1 false ChS 4].
Proof.
  pose proof (@page_range_checks 2
                [("2"%string, JInt 1); ("3"%string, JStr "4")]
                "3"%string (JStr "4")
                [mkPage 0 true (ChInt 0) 0; mkPage 1 false ChS 4]
                [("1"%string, (JInt 5, 1))] [] "9"%string 9 (JStr "S")
                ChS 2) as [H1 H2].
  split.
  - apply (@page_range_checks 3
             [("2"%string, JInt 1); ("3"%string, JStr "4")]
             "3"%string (JStr "4") [] [] [] "9"%string 9 (JStr "S") ChS 2).
    + simpl. auto.
    + right. exists 4. split; [vm_compute; reflexivity | lia].
  - apply H2.
    + repeat constructor; simpl; lia.
    + vm_compute. reflexivity.
    + lia.
    + reflexivity.
Defined.

(** C4 as stated fails: the second key is outside [1 .. 2], yet
    [_manual_page_adjustments] raises nothing, and the first page has been
    given its new classification. *)
Lemma override_key_out_of_range :
  _manual_page_adjustments
    [("1"%string, (JInt 5, 1)); ("9"%string, (JInt 1, 1))]
    [mkPage 0 true (ChInt 0) 0; mkPage 1 false ChS 4]
  = ([mkPage 0 false (ChInt 5) 1; mkPage 1 false ChS 4], None).
Proof. vm_compute. reflexivity. Qed.

(** * Further properties of the sort *)

(** Two lists in order that hold the same elements are one list, when no
    two different elements are tied. *)
Lemma strongly_sorted_unique (A : Type) (R : A -> A -> Prop) (l l' : list A) :
  (forall x y, In x l -> In y l -> R x y -> R y x -> x = y) ->
  StronglySorted R l -> StronglySorted R l' -> Permutation l l' -> l = l'.
Proof.
  revert l'. induction l as [|x xs IH]; intros l' Hanti Hs Hs' Hp.
  - apply Permutation_nil in Hp. symmetry. exact Hp.
  - destruct l' as [|y ys].
    + apply Permutation_sym, Permutation_nil in Hp. discriminate.
    + inversion Hs as [|? ? Hxs Hx]; subst.
      inversion Hs' as [|? ? Hys Hy]; subst.
      rewrite Forall_forall in Hx, Hy.
      assert (Exy : x = y).
      { assert (Hx' : In x (y :: ys))
          by (apply (Permutation_in _ Hp); left; reflexivity).
        assert (Hy' : In y (x :: xs))
          by (apply (Permutation_in _ (Permutation_sym Hp)); left;
              reflexivity).
        destruct Hx' as [E | Hx']; [symmetry; exact E|].
        destruct Hy' as [E | Hy']; [exact E|].
        apply Hanti; [left; reflexivity | right; exact Hy' | |].
        - apply Hx, Hy'.
        - apply Hy, Hx'. }
      subst y. f_equal. apply IH; try assumption.
      * intros a b Ha Hb. apply Hanti; right; assumption.
      * eapply Permutation_cons_inv, Hp.
Qed.

Section SortedUnique.
Variables (A K : Type) (ltb : K -> K -> bool) (key : A -> K).
Hypothesis ltb_asym : forall a b, ltb a b = true -> ltb b a = false.
Hypothesis leb_trans :
  forall a b c, ltb b a = false -> ltb c b = false -> ltb c a = false.

(** [sorted] does not depend on the order of its input when no two
    different elements of it have keys that are tied. *)
Lemma sorted_perm_eq (l l' : list A) :
  (forall x y, In x l -> In y l ->
               ltb (key y) (key x) = false -> ltb (key x) (key y) = false ->
               x = y) ->
  Permutation l l' -> sorted ltb key l = sorted ltb key l'.
Proof.
  intros Hanti Hp.
  apply strongly_sorted_unique with (R := key_le ltb key).
  - intros x y Hx Hy. unfold key_le.
    apply Hanti;
      eapply Permutation_in; try eassumption;
      apply Permutation_sym, sorted_perm.
  - apply sorted_strongly_sorted; assumption.
  - apply sorted_strongly_sorted; assumption.
  - eapply perm_trans; [apply Permutation_sym, sorted_perm|].
    eapply perm_trans; [exact Hp | apply sorted_perm].
Qed.

End SortedUnique.

(** One step of a comparison of tuples: two tuples of which neither is
    below the other agree on the component. *)
Lemma lex_step_tied (T : Type) (eqb ltb : T -> T -> bool) (a b : T)
  (r1 r2 : bool) (P : Prop) :
  (forall x y, reflect (x = y) (eqb x y)) ->
  (forall x y, ltb x y = false -> ltb y x = false -> x = y) ->
  (r1 = false -> r2 = false -> P) ->
  (if negb (eqb a b) then ltb a b else r1) = false ->
  (if negb (eqb b a) then ltb b a else r2) = false ->
  a = b /\ P.
Proof.
  intros eqb_spec antisym Hr.
  destruct (eqb_spec a b) as [->|Hab]; simpl.
  - destruct (eqb_spec b b) as [_|Hbb]; [|congruence]. simpl.
    intros H1 H2. split; [reflexivity | apply Hr; assumption].
  - destruct (eqb_spec b a) as [Hba|_]; [congruence | simpl].
    intros H1 H2. exfalso. apply Hab, antisym; assumption.
Qed.

Lemma strongly_sorted_weaken (A : Type) (R R' : A -> A -> Prop) (l : list A) :
  (forall x y, R x y -> R' x y) -> StronglySorted R l -> StronglySorted R' l.
Proof.
  intros HR. induction 1 as [|a l Hs IH Hall]; constructor.
  - exact IH.
  - eapply Forall_impl; [|exact Hall]. intros b. apply HR.
Qed.

Lemma num_tied (a b : num) :
  num_ltb a b = false -> num_ltb b a = false -> a = b.
Proof. apply num_leb_antisym. Qed.

(** Two sort keys of which neither is below the other are one key. *)
Lemma key_tied (a b : Scrambler.key_t) :
  Scrambler.key_ltb a b = false -> Scrambler.key_ltb b a = false -> a = b.
Proof.
  destruct a as [[[a1 a2] a3] a4], b as [[[b1 b2] b3] b4].
  unfold Scrambler.key_ltb. intros H1 H2.
  assert (H : a1 = b1 /\ a2 = b2 /\ a3 = b3 /\ a4 = b4).
  { revert H1 H2.
    apply (@lex_step_tied Z Z.eqb Z.ltb a1 b1 _ _ _ Z.eqb_spec Z_leb_antisym).
    apply (@lex_step_tied num num_eqb num_ltb a2 b2 _ _ _
             num_eqb_spec num_tied).
    apply (@lex_step_tied num num_eqb num_ltb a3 b3 _ _ _
             num_eqb_spec num_tied).
    apply Z_leb_antisym. }
  destruct H as (-> & -> & -> & ->). reflexivity.
Qed.

Module ScramblerExtra.
Import Scrambler.

Lemma sort_key_index (p q : Page) :
  sort_key p = sort_key q -> index p = index q.
Proof.
  unfold sort_key. destruct (failed p), (failed q); intros H;
    injection H; auto.
Qed.

Lemma page_le_label_le (p q : Page) : page_le p q -> label_le p q.
Proof.
  unfold page_le, key_le, sort_key, label_le.
  destruct (failed p), (failed q); cbn [key_ltb].
  - cbn. intros H. apply Z.ltb_ge in H. exact H.
  - cbn. discriminate.
  - intros _. exact I.
  - destruct (chapter p) as [a|], (chapter q) as [b|]; cbn.
    + destruct (Z.eqb_spec b a) as [->|Hne]; cbn.
      * destruct (Z.eqb_spec (chapter_page q) (chapter_page p)) as [E|Hp];
          cbn; intros H; apply Z.ltb_ge in H; right;
          (split; [reflexivity|]); [right | left]; lia.
      * intros H. apply Z.ltb_ge in H. left. lia.
    + intros _. left. exact I.
    + discriminate.
    + destruct (Z.eqb_spec (chapter_page q) (chapter_page p)) as [E|Hp];
        cbn; intros H; apply Z.ltb_ge in H; right;
        (split; [reflexivity|]); [right | left]; lia.
Qed.

(** X1: the output of [_rearrange_page_list] is in the order of the
    labels: of two of its pages the one that comes first is Classified when
    the other is, has the lower chapter (the Supplement being above every
    number), or the same chapter and the lower chapter page, or the same of
    both and the lower index; Unclassified pages come by index. *)
Theorem rearranged_by_label (init_pages : list Page) :
  StronglySorted label_le (_rearrange_page_list init_pages).
Proof.
  apply strongly_sorted_weaken with (R := page_le).
  - exact page_le_label_le.
  - apply ScramblerSpec.rearrange_strongly_sorted.
Qed.

Lemma index_inj_on (l : list Page) (x y : Page) :
  NoDup (map index l) -> In x l -> In y l -> index x = index y -> x = y.
Proof.
  induction l as [|a l IH]; cbn [map]; intros Hnd Hx Hy E.
  - destruct Hx.
  - inversion Hnd as [|? ? Hna Hnd']; subst.
    destruct Hx as [-> | Hx], Hy as [-> | Hy].
    + reflexivity.
    + exfalso. apply Hna. rewrite E. apply in_map, Hy.
    + exfalso. apply Hna. rewrite <- E. apply in_map, Hx.
    + apply IH; assumption.
Qed.

(** The Unclassified pages are the suffix of the output, and keep the
    order of an input that is in ascending order of the indices. *)
Lemma unclassified_suffix (init_pages : list Page) :
  StronglySorted Z.lt (map index init_pages) ->
  let out := _rearrange_page_list init_pages in
  out = filter (fun p => negb (failed p)) out ++ filter failed init_pages.
Proof.
  intros Hidx. cbv zeta.
  assert (Hf : filter failed (_rearrange_page_list init_pages)
               = filter failed init_pages).
  { unfold _rearrange_page_list.
    rewrite filter_sorted by (exact key_ltb_asym || exact key_leb_trans).
    apply sorted_fixpoint. apply StronglySorted_Sorted.
    clear - Hidx. induction init_pages as [|x l IH]; cbn [filter].
    - constructor.
    - cbn [map] in Hidx. inversion Hidx as [|? ? Hs Hall]; subst.
      specialize (IH Hs). destruct (failed x) eqn:Fx; [|exact IH].
      constructor; [exact IH|].
      rewrite Forall_forall in *. intros y Hy.
      apply filter_In in Hy. destruct Hy as [Hy Fy].
      apply ScramblerSpec.failed_index_page_le; auto.
      apply Hall, in_map, Hy. }
  rewrite <- Hf.
  apply strongly_sorted_split with (R := page_le).
  - exact ScramblerSpec.page_le_failed.
  - apply ScramblerSpec.rearrange_strongly_sorted.
Qed.

(** X2: when the pages have different indices, the output of
    [_rearrange_page_list] depends on which pages the list holds and not
    on the order in which it holds them. *)
Theorem rearrange_ignores_input_order (l l' : list Page) :
  NoDup (map index l) -> Permutation l l' ->
  _rearrange_page_list l = _rearrange_page_list l'.
Proof.
  intros Hnd Hp. unfold _rearrange_page_list.
  apply sorted_perm_eq.
  - exact key_ltb_asym.
  - exact key_leb_trans.
  - intros x y Hx Hy H1 H2. apply (index_inj_on l); try assumption.
    apply sort_key_index. apply key_tied; assumption.
  - exact Hp.
Qed.

Lemma rearrange_ignores_input_order_witness :
  _rearrange_page_list sample_pages = _rearrange_page_list (rev sample_pages).
Proof.
  apply rearrange_ignores_input_order.
  - cbn. repeat (constructor; [cbn; intuition lia|]). constructor.
  - apply Permutation_rev.
Defined.

End ScramblerExtra.

(** * Further properties of the move list *)

Lemma filter_notin (f : Z -> bool) (l : list Z) :
  (forall x, In x l -> f x = true) -> filter f l = l.
Proof.
  induction l as [|y l IH]; cbn [filter]; intros H.
  - reflexivity.
  - rewrite (H y (or_introl eq_refl)). f_equal. apply IH.
    intros x Hx. apply H. right. exact Hx.
Qed.

Lemma without_notin (s : Z) (l : list Z) : ~ In s l -> without s l = l.
Proof.
  intros H. apply filter_notin. intros x Hx.
  destruct (Z.eqb_spec x s) as [->|_]; [contradiction | reflexivity].
Qed.

Lemma without_in (s x : Z) (l : list Z) :
  In x (without s l) <-> In x l /\ x <> s.
Proof.
  unfold without. rewrite filter_In, negb_true_iff, Z.eqb_neq. reflexivity.
Qed.

(** In a list without repeats, [pop] at the place of [s] leaves
    everything but [s]. *)
Lemma pop_index_without (l : list Z) (s : Z) (i : nat) :
  NoDup l -> Py.index l s = Some i -> pop l i = without s l.
Proof.
  intros Hnd. revert i. induction Hnd as [|y l Hy Hnd IH]; intros i;
    cbn [Py.index pop without filter].
  - discriminate.
  - destruct (Z.eqb_spec y s) as [->|Hne]; cbn [negb].
    + intros H. injection H as <-. symmetry. apply without_notin, Hy.
    + destruct (Py.index l s) as [j|]; [|discriminate].
      intros H. injection H as <-. cbn [pop]. f_equal. apply IH. reflexivity.
Qed.

Lemma split_unique (l1 l2 l1' l2' : list Z) (a : Z) :
  ~ In a l1 -> ~ In a l1' ->
  l1 ++ a :: l2 = l1' ++ a :: l2' -> l1 = l1' /\ l2 = l2'.
Proof.
  revert l1'. induction l1 as [|x l1 IH]; intros l1' H1 H1' E.
  - destruct l1' as [|y l1']; cbn in E.
    + injection E as <-. auto.
    + injection E as <- _. exfalso. apply H1'. left. reflexivity.
  - destruct l1' as [|y l1']; cbn in E.
    + injection E as -> _. exfalso. apply H1. left. reflexivity.
    + injection E as <- E. destruct (IH l1') as [-> ->]; auto.
      * intros H. apply H1. right. exact H.
      * intros H. apply H1'. right. exact H.
Qed.

Lemma index_app_pivot (l1 l2 : list Z) (a : Z) :
  ~ In a l1 -> Py.index (l1 ++ a :: l2) a = Some (length l1).
Proof.
  induction l1 as [|x l1 IH]; cbn [app Py.index length]; intros H.
  - rewrite Z.eqb_refl. reflexivity.
  - destruct (Z.eqb_spec x a) as [->|_].
    + exfalso. apply H. left. reflexivity.
    + rewrite IH; [reflexivity|]. intros Hin. apply H. right. exact Hin.
Qed.

Module ManualScramblerExtra.
Import ManualScrambler.

Lemma without_pivot (s a : Z) (l1 l2 : list Z) :
  without s (l1 ++ a :: l2) = l1 ++ a :: l2 ->
  without s (l1 ++ a :: s :: l2) = l1 ++ a :: l2.
Proof.
  unfold without. rewrite !filter_app. cbn [filter].
  rewrite Z.eqb_refl. cbn [negb].
  destruct (negb (a =? s)); intros H; exact H.
Qed.

Lemma apply_move_shape (order : list Z) (s a : Z) :
  NoDup order -> In s order -> In a order -> s <> a ->
  exists l1 l2,
    without s order = l1 ++ a :: l2
    /\ apply_move order (s, a) = l1 ++ a :: s :: l2.
Proof.
  intros Hnd Hs Ha Hne.
  destruct (index_some_in order s Hs) as [cur_idx Ei].
  pose proof (@pop_index_without order s cur_idx Hnd Ei) as Ep.
  assert (Ha' : In a (pop order cur_idx)).
  { rewrite Ep. apply without_in. split; [exact Ha | congruence]. }
  destruct (index_some_in _ _ Ha') as [i Ea].
  destruct (@ManualScramblerSpec.apply_move_after_anchor
              order s a cur_idx i Ei Ea) as (l1 & l2 & E & _ & Er).
  exists l1, l2. rewrite <- Ep. split; assumption.
Qed.

(** X3: one round of the move loop, on an order that holds every page
    once and with a source and an anchor that are in it and differ: the
    source goes right behind the anchor, and the other pages stay as they
    were. *)
Theorem move_round (order : list Z) (s a : Z) :
  NoDup order -> In s order -> In a order -> s <> a ->
  exists l1 l2,
    without s order = l1 ++ a :: l2
    /\ apply_move order (s, a) = l1 ++ a :: s :: l2.
Proof.
  intros Hnd Hs Ha Hne.
  destruct (index_some_in order s Hs) as [cur_idx Ei].
  pose proof (@pop_index_without order s cur_idx Hnd Ei) as Ep.
  assert (Ha' : In a (without s order))
    by (apply without_in; split; [exact Ha | congruence]).
  rewrite <- Ep in Ha'. destruct (index_some_in _ _ Ha') as [i Ea].
  destruct (@ManualScramblerSpec.apply_move_after_anchor
              order s a cur_idx i Ei Ea) as (l1 & l2 & E & _ & Er).
  exists l1, l2. rewrite <- Ep. split; assumption.
Qed.

Lemma move_round_witness :
  exists l1 l2,
    without 5 [1; 2; 3; 4; 5] = l1 ++ 2 :: l2
    /\ apply_move [1; 2; 3; 4; 5] (5, 2) = l1 ++ 2 :: 5 :: l2.
Proof.
  apply move_round.
  - repeat (constructor; [cbn; intuition lia|]). constructor.
  - cbn. auto 10.
  - cbn. auto 10.
  - lia.
Defined.

(** X4: a round that is run again changes nothing. *)
Theorem move_round_idempotent (order : list Z) (s a : Z) :
  NoDup order -> In s order -> In a order -> s <> a ->
  apply_move (apply_move order (s, a)) (s, a) = apply_move order (s, a).
Proof.
  intros Hnd Hs Ha Hne.
  destruct (@apply_move_shape order s a Hnd Hs Ha Hne)
    as (l1 & l2 & Ew & Er).
  pose proof (ManualScramblerSpec.apply_move_perm order (s, a)) as Hp.
  assert (Hnd' : NoDup (apply_move order (s, a)))
    by (apply (Permutation_NoDup Hp), Hnd).
  destruct (@apply_move_shape (apply_move order (s, a)) s a Hnd')
    as (l1' & l2' & Ew' & Er'); [| |exact Hne|].
  - apply (Permutation_in _ Hp), Hs.
  - apply (Permutation_in _ Hp), Ha.
  - rewrite Er', Er. rewrite Er in Ew'.
    assert (Hw : without s (l1 ++ a :: l2) = l1 ++ a :: l2).
    { rewrite <- Ew. apply without_notin. intros H.
      apply without_in in H. destruct H as [_ H]. congruence. }
    rewrite (@without_pivot s a l1 l2 Hw) in Ew'.
    assert (Hnw : NoDup (l1 ++ a :: l2)).
    { rewrite <- Ew. apply NoDup_filter, Hnd. }
    assert (Hn1 : ~ In a l1).
    { intros H. apply NoDup_remove_2 in Hnw. apply Hnw.
      apply in_or_app. left. exact H. }
    assert (Hn1' : ~ In a l1').
    { intros H. rewrite Ew' in Hnw. apply NoDup_remove_2 in Hnw. apply Hnw.
      apply in_or_app. left. exact H. }
    destruct (@split_unique l1 l2 l1' l2' a Hn1 Hn1' Ew')
      as [-> ->]. reflexivity.
Qed.

Lemma move_round_idempotent_witness :
  apply_move (apply_move [1; 2; 3; 4; 5] (5, 2)) (5, 2)
  = apply_move [1; 2; 3; 4; 5] (5, 2).
Proof.
  apply move_round_idempotent.
  - repeat (constructor; [cbn; intuition lia|]). constructor.
  - cbn. auto 10.
  - cbn. auto 10.
  - lia.
Defined.

(** *** What the normalisation loop comes to *)

Lemma parse_entry_raise (e : string * jval) (x : exn) :
  parse_entry e = Raise x -> x = ValueError.
Proof.
  unfold parse_entry. destruct e as [k v]. cbn [fst snd].
  destruct (int_str k) as [s|e1] eqn:Ek; cbn [bind].
  2: { intros H. injection H as <-.
       eapply ManualScramblerSpec.int_str_raise, Ek. }
  destruct (int_jval v) as [a|e2] eqn:Ev; cbn [bind]; [discriminate|].
  intros H. injection H as <-.
  eapply ManualScramblerSpec.int_jval_raise, Ev.
Qed.

Lemma normalize_loop_spec (page_count : Z) (raw : list (string * jval))
  (moves : list (Z * Z)) :
  normalize_loop page_count raw moves =
  if forallb (entry_accepted page_count) raw
  then Ok (moves ++ flat_map entry_moves raw)
  else Raise ValueError.
Proof.
  revert moves. induction raw as [|[k v] raw IH]; intros moves;
    cbn [normalize_loop forallb flat_map].
  - rewrite app_nil_r. reflexivity.
  - unfold entry_accepted, entry_moves.
    destruct (parse_entry (k, v)) as [[s a]|x] eqn:Ep.
    + unfold parse_entry in Ep. cbn [fst snd] in Ep.
      destruct (int_str k) as [s'|]; cbn [bind] in Ep; [|discriminate].
      destruct (int_jval v) as [a'|]; cbn [bind] in Ep; [|discriminate].
      injection Ep as -> ->. cbn [bind].
      destruct (1 <=? s), (s <=? page_count); cbn [andb negb];
        try reflexivity.
      destruct (1 <=? a), (a <=? page_count); cbn [andb negb];
        try reflexivity.
      destruct (s =? a); rewrite IH.
      * reflexivity.
      * rewrite <- app_assoc. reflexivity.
    + cbn [andb]. pose proof (parse_entry_raise _ Ep) as ->.
      unfold parse_entry in Ep. cbn [fst snd] in Ep.
      destruct (int_str k) as [s'|]; cbn [bind] in *.
      * destruct (int_jval v) as [a'|]; cbn [bind] in *;
          [discriminate | injection Ep as ->; reflexivity].
      * injection Ep as ->. reflexivity.
Qed.

Lemma rearrange_spec (page_count : Z) (raw : list (string * jval)) :
  rearrange page_count raw =
  if forallb (entry_accepted page_count) raw
  then Ok (apply_moves (sort_moves (flat_map entry_moves raw))
             (range 1 (page_count + 1)))
  else Raise ValueError.
Proof.
  unfold rearrange. rewrite normalize_loop_spec.
  destruct (forallb (entry_accepted page_count) raw); reflexivity.
Qed.


(** *** The order of the moves *)

Lemma pair_ltb_asym (a b : Z * Z) :
  pair_ltb a b = true -> pair_ltb b a = false.
Proof.
  unfold pair_ltb.
  apply (lex_step_asym _ _ Z.eqb_spec Z_ltb_asym). apply Z_ltb_asym.
Qed.

Lemma pair_leb_trans (a b c : Z * Z) :
  pair_ltb b a = false -> pair_ltb c b = false -> pair_ltb c a = false.
Proof.
  unfold pair_ltb.
  apply (lex_step_trans _ _ Z.eqb_spec Z_leb_antisym Z_leb_trans).
  apply Z_leb_trans.
Qed.

Lemma pair_tied (a b : Z * Z) :
  pair_ltb a b = false -> pair_ltb b a = false -> a = b.
Proof.
  unfold pair_ltb. intros H1 H2.
  assert (H : fst a = fst b /\ snd a = snd b).
  { revert H1 H2.
    apply (@lex_step_tied Z Z.eqb Z.ltb (fst a) (fst b) _ _ _
             Z.eqb_spec Z_leb_antisym).
    apply Z_leb_antisym. }
  destruct a, b. cbn in H. destruct H as [-> ->]. reflexivity.
Qed.

Lemma move_key_le (m m' : Z * Z) :
  key_le pair_ltb move_key m m' -> move_le m m'.
Proof.
  unfold key_le, pair_ltb, move_key, move_le. cbn [fst snd].
  destruct (Z.eqb_spec (snd m') (snd m)) as [E|Hne]; cbn [negb];
    intros H; apply Z.ltb_ge in H; lia.
Qed.

(** X6: the moves are applied by ascending anchor and, for one anchor, by
    ascending source; they are the moves of the list, each as often as it
    is there. *)
Theorem moves_in_anchor_order (moves : list (Z * Z)) :
  StronglySorted move_le (sort_moves moves)
  /\ Permutation moves (sort_moves moves).
Proof.
  split.
  - apply strongly_sorted_weaken with (R := key_le pair_ltb move_key).
    + exact move_key_le.
    + apply sorted_strongly_sorted.
      * exact pair_ltb_asym.
      * exact pair_leb_trans.
  - apply sorted_perm.
Qed.

Lemma sort_moves_perm_eq (moves moves' : list (Z * Z)) :
  Permutation moves moves' -> sort_moves moves = sort_moves moves'.
Proof.
  intros Hp. unfold sort_moves. apply sorted_perm_eq.
  - exact pair_ltb_asym.
  - exact pair_leb_trans.
  - intros x y _ _ H1 H2.
    pose proof (@pair_tied (move_key x) (move_key y) H2 H1) as E.
    unfold move_key in E. destruct x, y. cbn in E. congruence.
  - exact Hp.
Qed.

Lemma forallb_perm (A : Type) (f : A -> bool) (l l' : list A) :
  Permutation l l' -> forallb f l = forallb f l'.
Proof.
  induction 1 as [|x l l' Hp IH|x y l|l l' l'' H1 IH1 H2 IH2];
    cbn [forallb].
  - reflexivity.
  - rewrite IH. reflexivity.
  - destruct (f x), (f y); reflexivity.
  - rewrite IH1. exact IH2.
Qed.

(** X7: whether [rearrange] returns, and the order that it returns, do
    not depend on the order in which the mapping lists its items. *)
Theorem rearrange_ignores_item_order (page_count : Z)
  (raw raw' : list (string * jval)) :
  Permutation raw raw' ->
  (forall order,
     rearrange page_count raw = Ok order ->
     rearrange page_count raw' = Ok order)
  /\ ((exists e, rearrange page_count raw = Raise e) ->
      exists e', rearrange page_count raw' = Raise e').
Proof.
  intros Hp. rewrite !rearrange_spec.
  rewrite (forallb_perm (entry_accepted page_count) Hp).
  rewrite (@sort_moves_perm_eq (flat_map entry_moves raw)
             (flat_map entry_moves raw')).
  - auto.
  - apply Permutation_flat_map, Hp.
Qed.

Lemma rearrange_ignores_item_order_witness :
  rearrange 30 [("30"%string, JInt 10); ("20"%string, JInt 5)]
  = Ok (apply_moves [(20, 5); (30, 10)] (range 1 31)).
Proof.
  apply (proj1 (@rearrange_ignores_item_order 30
                  [("20"%string, JInt 5); ("30"%string, JInt 10)]
                  [("30"%string, JInt 10); ("20"%string, JInt 5)]
                  (perm_swap _ _ _))).
  vm_compute. reflexivity.
Defined.

(** X8: when every item of the mapping moves a page of the document
    behind itself, and so too when the mapping is empty, [rearrange] gives
    the pages in their order in the document. *)
Theorem self_moves_change_nothing (page_count : Z)
  (raw : list (string * jval)) :
  Forall (fun e => exists s, parse_entry e = Ok (s, s)
                             /\ 1 <= s <= page_count) raw ->
  rearrange page_count raw = Ok (range 1 (page_count + 1)).
Proof.
  intros H. rewrite rearrange_spec.
  assert (Ha : forallb (entry_accepted page_count) raw = true).
  { apply forallb_forall. rewrite Forall_forall in H. intros e He.
    destruct (H e He) as (s & Ep & Hs). unfold entry_accepted. rewrite Ep.
    rewrite !andb_true_iff, !Z.leb_le. lia. }
  assert (Hm : flat_map entry_moves raw = []).
  { induction H as [|e raw (s & Ep & Hs) _ IH]; cbn [flat_map].
    - reflexivity.
    - unfold entry_moves at 1. rewrite Ep, Z.eqb_refl.
      apply IH. cbn [forallb] in Ha. apply andb_true_iff in Ha. apply Ha. }
  rewrite Ha, Hm. reflexivity.
Qed.

Lemma self_moves_change_nothing_witness :
  rearrange 7 [("5"%string, JInt 5); ("2"%string, JStr " 2")]
  = Ok (range 1 (7 + 1)).
Proof.
  apply self_moves_change_nothing.
  constructor; [|constructor; [|constructor]].
  - exists 5. split; [vm_compute; reflexivity | lia].
  - exists 2. split; [vm_compute; reflexivity | lia].
Defined.

(** *** Where a moved page ends up *)

Lemma nodup_split_unique (l1 l2 l1' l2' : list Z) (a : Z) :
  NoDup (l1 ++ a :: l2) -> l1 ++ a :: l2 = l1' ++ a :: l2' ->
  l1 = l1' /\ l2 = l2'.
Proof.
  intros Hnd E. apply split_unique with a; [| |exact E].
  - intros H. apply NoDup_remove_2 in Hnd. apply Hnd.
    apply in_or_app. left. exact H.
  - intros H. rewrite E in Hnd. apply NoDup_remove_2 in Hnd. apply Hnd.
    apply in_or_app. left. exact H.
Qed.

Lemma apply_moves_snoc (moves : list (Z * Z)) (m : Z * Z) (order : list Z) :
  apply_moves (moves ++ [m]) order = apply_move (apply_moves moves order) m.
Proof. unfold apply_moves. rewrite fold_left_app. reflexivity. Qed.

(** X9: with a move set that [rearrange] accepts, the source of the move
    that is applied last (the one with the highest anchor, and of these
    the one with the highest source) stands right behind its anchor in the
    order that [rearrange] returns. *)
Theorem last_move_behind_anchor (page_count : Z)
  (raw : list (string * jval)) (moves ms : list (Z * Z)) (s a : Z) :
  normalize_loop page_count raw [] = Ok moves ->
  sort_moves moves = ms ++ [(s, a)] ->
  exists l1 l2, rearrange page_count raw = Ok (l1 ++ a :: s :: l2).
Proof.
  intros Hn Es.
  rewrite (@ManualScramblerSpec.rearrange_ok page_count raw moves Hn).
  rewrite Es, apply_moves_snoc.
  pose proof (ManualScramblerSpec.apply_moves_perm ms
                (range 1 (page_count + 1))) as Hp.
  assert (Hok : move_ok page_count (s, a)).
  { assert (Hall : Forall (move_ok page_count) (sort_moves moves)).
    { apply ManualScramblerSpec.sort_moves_ok.
      apply (@ManualScramblerSpec.normalize_loop_ok
               page_count raw [] moves Hn). constructor. }
    rewrite Es in Hall. apply Forall_app in Hall. destruct Hall as [_ Hall].
    inversion Hall; assumption. }
  destruct Hok as (Hs & Ha & Hne). cbn [fst snd] in *.
  destruct (@apply_move_shape
              (apply_moves ms (range 1 (page_count + 1))) s a)
    as (l1 & l2 & _ & Er).
  - apply (Permutation_NoDup Hp), range_nodup.
  - apply (Permutation_in _ Hp), range_in. lia.
  - apply (Permutation_in _ Hp), range_in. lia.
  - exact Hne.
  - exists l1, l2. rewrite Er. reflexivity.
Qed.

Lemma last_move_behind_anchor_witness :
  exists l1 l2,
    rearrange 30 [("30"%string, JInt 10); ("20"%string, JInt 5)]
    = Ok (l1 ++ 10 :: 30 :: l2).
Proof.
  apply (@last_move_behind_anchor 30
           [("30"%string, JInt 10); ("20"%string, JInt 5)]
           [(30, 10); (20, 5)] [(20, 5)] 30 10).
  - vm_compute. reflexivity.
  - vm_compute. reflexivity.
Defined.

Lemma range_length (a b : Z) : length (range a b) = Z.to_nat (b - a).
Proof. unfold range. rewrite length_map, length_seq. reflexivity. Qed.

Lemma without_range (s n : Z) :
  1 <= s <= n ->
  without s (range 1 (n + 1)) = range 1 s ++ range (s + 1) (n + 1).
Proof.
  intros H.
  rewrite (@range_app 1 s (n + 1)) by lia.
  rewrite (@range_cons s (n + 1)) by lia.
  unfold without. rewrite filter_app. cbn [filter].
  rewrite Z.eqb_refl. cbn [negb].
  fold (without s (range 1 s)). fold (without s (range (s + 1) (n + 1))).
  rewrite !without_notin; [reflexivity | |]; rewrite range_in; lia.
Qed.

(** X10: one move on the pages in document order.  A page moved behind an
    earlier page [a] becomes page [a + 1], and the pages between move up
    by one; a page moved behind a later page [a] becomes page [a], and
    the pages between move down by one. *)
Theorem single_move (page_count : Z) (k : string) (v : jval) (s a : Z) :
  parse_entry (k, v) = Ok (s, a) ->
  1 <= s <= page_count -> 1 <= a <= page_count -> s <> a ->
  let final :=
    if a <? s
    then range 1 (a + 1) ++ s :: range (a + 1) s
         ++ range (s + 1) (page_count + 1)
    else range 1 s ++ range (s + 1) (a + 1) ++ s
         :: range (a + 1) (page_count + 1) in
  rearrange page_count [(k, v)] = Ok final
  /\ nth_error final (Z.to_nat (if a <? s then a else a - 1)) = Some s.
Proof.
  intros Ep Hs Ha Hne. cbv zeta. split.
  - rewrite rearrange_spec. cbn [forallb flat_map].
    unfold entry_accepted, entry_moves. rewrite Ep.
    replace (1 <=? s) with true by (symmetry; apply Z.leb_le; lia).
    replace (s <=? page_count) with true by (symmetry; apply Z.leb_le; lia).
    replace (1 <=? a) with true by (symmetry; apply Z.leb_le; lia).
    replace (a <=? page_count) with true by (symmetry; apply Z.leb_le; lia).
    replace (s =? a) with false by (symmetry; apply Z.eqb_neq; exact Hne).
    cbn [andb app]. f_equal.
    change (apply_move (range 1 (page_count + 1)) (s, a) = 
            if a <? s
            then range 1 (a + 1) ++ s :: range (a + 1) s
                 ++ range (s + 1) (page_count + 1)
            else range 1 s ++ range (s + 1) (a + 1) ++ s
                 :: range (a + 1) (page_count + 1)).
    destruct (@apply_move_shape (range 1 (page_count + 1)) s a)
      as (l1 & l2 & Ew & Er);
      [apply range_nodup | apply range_in; lia | apply range_in; lia
      | exact Hne |].
    rewrite Er. clear Er.
    assert (Hnd : NoDup (l1 ++ a :: l2)).
    { rewrite <- Ew. apply NoDup_filter, range_nodup. }
    rewrite (@without_range s page_count Hs) in Ew.
    destruct (Z.ltb_spec a s) as [Has|Has].
    + rewrite (@range_app 1 a s) in Ew by lia.
      rewrite (@range_cons a s) in Ew by lia.
      rewrite <- app_assoc in Ew. cbn [app] in Ew.
      destruct (@nodup_split_unique l1 l2 _ _ a Hnd (eq_sym Ew)) as [-> ->].
      rewrite (@range_app 1 a (a + 1)) by lia.
      rewrite (@range_cons a (a + 1)) by lia.
      replace (range (a + 1) (a + 1)) with (@nil Z)
        by (unfold range; rewrite Z.sub_diag; reflexivity).
      rewrite <- app_assoc. reflexivity.
    + rewrite (@range_app (s + 1) a (page_count + 1)) in Ew by lia.
      rewrite (@range_cons a (page_count + 1)) in Ew by lia.
      rewrite app_assoc in Ew.
      destruct (@nodup_split_unique l1 l2 _ _ a Hnd (eq_sym Ew)) as [-> ->].
      rewrite (@range_app (s + 1) a (a + 1)) by lia.
      rewrite (@range_cons a (a + 1)) by lia.
      replace (range (a + 1) (a + 1)) with (@nil Z)
        by (unfold range; rewrite Z.sub_diag; reflexivity).
      rewrite <- !app_assoc. reflexivity.
  - destruct (Z.ltb_spec a s) as [Has|Has].
    + rewrite nth_error_app2; rewrite range_length; [|lia].
      replace (Z.to_nat a - Z.to_nat (a + 1 - 1))%nat with 0%nat by lia.
      reflexivity.
    + rewrite app_assoc.
      rewrite nth_error_app2; rewrite length_app, !range_length; [|lia].
      replace (Z.to_nat (a - 1)
               - (Z.to_nat (s - 1) + Z.to_nat (a + 1 - (s + 1))))%nat
        with 0%nat by lia.
      reflexivity.
Qed.

Lemma single_move_witness :
  let final :=
    if 5 <? 20
    then range 1 (5 + 1) ++ 20 :: range (5 + 1) 20 ++ range (20 + 1) (30 + 1)
    else range 1 20 ++ range (20 + 1) (5 + 1) ++ 20
         :: range (5 + 1) (30 + 1) in
  rearrange 30 [("20"%string, JInt 5)] = Ok final
  /\ nth_error final (Z.to_nat (if 5 <? 20 then 5 else 5 - 1)) = Some 20.
Proof.
  apply (@single_move 30 "20"%string (JInt 5) 20 5).
  - vm_compute. reflexivity.
  - lia.
  - lia.
  - lia.
Defined.

End ManualScramblerExtra.

(** * Further properties of the classification passes *)

Module ClassifierExtra.
Import Scrambler.

(** X11: the pattern of the OCR pass never gives ["$"] for the chapter: in
    every match that it finds, in any text, the chapter is a run of digits
    or ["S"], and the chapter page is a run of digits. *)
Theorem ocr_pattern_groups (text : string) :
  Forall (fun g => (digits (fst g) \/ fst g = "S"%string)
                   /\ fst g <> "$"%string /\ digits (snd g))
    (Re.findall false text).
Proof.
  unfold Re.findall.
  eapply Forall_impl;
    [|apply (findall_from_ok false (list_ascii_of_string text) 0)].
  intros [first second] [Hf Hs]. cbn [fst snd] in *.
  destruct Hf as [Hd | [-> | [Hx _]]]; [| |discriminate].
  - split; [left; exact Hd|]. split; [|exact Hs]. intros ->.
    discriminate (@digits_not_letter "$"%string "$"%char Hd eq_refl).
  - split; [right; reflexivity|]. split; [discriminate | exact Hs].
Qed.

Lemma ocr_page_total (ocr : Z -> result string) (p : Page) :
  ocr_readable ocr p -> exists p', ocr_page ocr p = Ok p'.
Proof.
  unfold ocr_readable, ocr_page. destruct (failed p); cbn [negb].
  2: { intros _. eexists. reflexivity. }
  intros H. destruct (H eq_refl) as (text & -> & Hr). cbn [bind]. cbv zeta.
  unfold readable in Hr.
  destruct (last_opt (Re.findall false text)) as [[first second]|] eqn:E.
  2: { eexists. reflexivity. }
  destruct Hr as [Hl1 Hl2].
  destruct (last_match_ok _ _ E) as [Hfirst Hsecond]. cbn [fst snd] in *.
  destruct (int_str_digits Hsecond Hl2) as (z2 & E2 & _). rewrite E2.
  destruct Hfirst as [Hd | [-> | [Hf _]]]; [| |discriminate].
  - rewrite (@digits_not_letter first "S"%char Hd eq_refl).
    destruct (int_str_digits Hd Hl1) as (z1 & E1 & _). rewrite E1.
    cbn [bind]. eexists. reflexivity.
  - rewrite String.eqb_refl. cbn [bind]. eexists. reflexivity.
Qed.

Lemma ocr_loop_total (ocr : Z -> result string) (init_pages : list Page) :
  Forall (ocr_readable ocr) init_pages ->
  exists pages, ocr_loop ocr init_pages = Ok pages.
Proof.
  induction 1 as [|p rest Hp _ IH]; cbn [ocr_loop].
  - eexists. reflexivity.
  - destruct (ocr_page_total Hp) as [p' ->]. destruct IH as [pages ->].
    cbn [bind]. eexists. reflexivity.
Qed.

Lemma ocr_failed_pages_total (HAS_OCR : bool) (ocr : Z -> result string)
  (init_pages : list Page) :
  HAS_OCR = false \/ Forall (ocr_readable ocr) init_pages ->
  exists pages, _ocr_failed_pages HAS_OCR ocr init_pages = Ok pages.
Proof.
  unfold _ocr_failed_pages. destruct HAS_OCR; cbn [negb].
  - intros [H | H]; [discriminate | apply ocr_loop_total, H].
  - intros _. eexists. reflexivity.
Qed.

(** X12: what the OCR pass returns, when it returns, for an engine that
    gives ASCII texts.  Without the OCR modules it is the page list as it
    was.  With them it is a list of the same pages in the same places, in
    which a Classified page is as it was, and an Unclassified page is
    Classified by the last match of the pattern in the text that the
    engine read from it, or as it was when there is no match.  The pass
    (no log being written) returns without the OCR modules, and with them
    when the engine gives, for every Unclassified page, a text whose last
    match has no run of more than 4300 digits. *)
Theorem ocr_pass (HAS_OCR : bool) (ocr : Z -> result string)
  (init_pages : list Page) :
  (forall i text, ocr i = Ok text -> ascii_only text) ->
  (forall pages,
     _ocr_failed_pages HAS_OCR ocr init_pages = Ok pages ->
     if HAS_OCR then Forall2 (ocr_result ocr) init_pages pages
     else pages = init_pages)
  /\ (HAS_OCR = false \/ Forall (ocr_readable ocr) init_pages ->
      exists pages, _ocr_failed_pages HAS_OCR ocr init_pages = Ok pages).
Proof.
  intros _. split.
  - intros pages E.
    destruct (ClassifierSpec.ocr_failed_pages_spec _ _ _ E) as [H _].
    exact H.
  - apply ocr_failed_pages_total.
Qed.

Lemma ocr_pass_witness :
  Forall2 (ocr_result (fun _ => Ok "S -12"%string))
    [mkPage 0 false (ChInt 0) 0; mkPage 1 true (ChInt 0) 0]
    [mkPage 0 false (ChInt 0) 0; mkPage 1 false ChS 12].
Proof.
  apply (proj1 (@ocr_pass true (fun _ => Ok "S -12"%string)
                  [mkPage 0 false (ChInt 0) 0; mkPage 1 true (ChInt 0) 0]
                  ltac:(intros i text H; injection H as <-;
                        repeat constructor))).
  vm_compute. reflexivity.
Defined.

(** *** The manual adjustments *)

Lemma convert_chapter_raise (c : jval) (e : exn) :
  convert_chapter c = Raise e -> e = ValueError.
Proof.
  destruct c as [z|c]; cbn [convert_chapter]; [discriminate|].
  destruct (String.eqb c "S"); [discriminate|].
  destruct (int_str c) as [z|e'] eqn:E; cbn [bind]; [discriminate|].
  intros H. injection H as <-.
  eapply ManualScramblerSpec.int_str_raise, E.
Qed.

Lemma adjust_entry_raise (init_pages : list Page) (a : adjustment) (e : exn) :
  adjust_entry init_pages a = Raise e -> e = ValueError.
Proof.
  destruct a as [key [c cp]]. unfold adjust_entry.
  destruct (int_str key) as [k|e1] eqn:Ek; cbn [bind].
  2: { intros H. injection H as <-.
       eapply ManualScramblerSpec.int_str_raise, Ek. }
  destruct (convert_chapter c) as [ch|e2] eqn:Ec; cbn [bind]; [discriminate|].
  intros H. injection H as <-. eapply convert_chapter_raise, Ec.
Qed.




Lemma update_page_map (init_pages : list Page) (page_index : Z) (new : Page) :
  NoDup (map index init_pages) ->
  update_page init_pages page_index new =
  map (fun q => if index q =? page_index then new else q) init_pages.
Proof.
  induction init_pages as [|q rest IH]; cbn [map update_page]; intros Hnd.
  - reflexivity.
  - inversion Hnd as [|? ? Hq Hrest]; subst.
    destruct (Z.eqb_spec (index q) page_index) as [E|Hne].
    + f_equal. rewrite <- (map_id rest) at 1. apply map_ext_in.
      intros r Hr. destruct (Z.eqb_spec (index r) page_index) as [E'|_];
        [|reflexivity].
      exfalso. apply Hq. rewrite E, <- E'. apply in_map, Hr.
    + f_equal. apply IH, Hrest.
Qed.

(** X14: a manual adjustment whose key and chapter [int()] reads puts the
    chapter and the chapter page of the mapping on the page that the key
    names, Classified or not, and leaves every other page as it is; a key
    that names no page of the list changes nothing. *)
Theorem manual_adjustment_overwrites (init_pages : list Page) (key : string)
  (k : Z) (c : jval) (ch : chapter_t) (cp : Z) :
  NoDup (map index init_pages) ->
  int_str key = Ok k -> convert_chapter c = Ok ch ->
  adjust_entry init_pages (key, (c, cp))
  = Ok (map (adjusted k ch cp) init_pages).
Proof.
  intros Hnd Hk Hc. unfold adjust_entry. rewrite Hk, Hc. cbn [bind].
  rewrite update_page_map by exact Hnd. reflexivity.
Qed.

Lemma manual_adjustment_overwrites_witness :
  adjust_entry [mkPage 0 true (ChInt 0) 0; mkPage 1 false (ChInt 3) 4]
    ("2"%string, (JStr "S", 9))
  = Ok (map (adjusted 2 ChS 9)
          [mkPage 0 true (ChInt 0) 0; mkPage 1 false (ChInt 3) 4]).
Proof.
  apply manual_adjustment_overwrites.
  - cbn. repeat (constructor; [cbn; intuition lia|]). constructor.
  - vm_compute. reflexivity.
  - reflexivity.
Defined.

(** X15: a manual adjustment for a page of the list takes the page out
    of the Unclassified pages at the end of the sorted list: the page is
    among the Classified pages with its new label, and no page with its
    index is among the Unclassified ones. *)
Theorem manual_adjustment_classifies (init_pages : list Page) (key : string)
  (k : Z) (c : jval) (ch : chapter_t) (cp : Z) :
  NoDup (map index init_pages) ->
  int_str key = Ok k -> convert_chapter c = Ok ch ->
  In (k - 1) (map index init_pages) ->
  exists pages,
    adjust_entry init_pages (key, (c, cp)) = Ok pages
    /\ In (mkPage (k - 1) false ch cp)
         (filter (fun p => negb (failed p)) (_rearrange_page_list pages))
    /\ Forall (fun p => index p <> k - 1)
         (filter failed (_rearrange_page_list pages)).
Proof.
  intros Hnd Hk Hc Hin. exists (map (adjusted k ch cp) init_pages).
  split.
  { unfold adjust_entry. rewrite Hk, Hc. cbn [bind].
    rewrite update_page_map by exact Hnd. reflexivity. }
  split.
  - apply filter_In. split; [|reflexivity].
    pose proof (ScramblerSpec.rearrange_perm
                  (map (adjusted k ch cp) init_pages)) as Hperm.
    apply (Permutation_in _ Hperm).
    apply in_map_iff in Hin. destruct Hin as (q & Hq & Hin).
    apply in_map_iff. exists q. split; [|exact Hin].
    unfold adjusted. rewrite Hq, Z.eqb_refl. reflexivity.
  - rewrite Forall_forall. intros p Hp. apply filter_In in Hp.
    destruct Hp as [Hp Fp].
    pose proof (ScramblerSpec.rearrange_perm
                  (map (adjusted k ch cp) init_pages)) as Hperm.
    apply (Permutation_in _ (Permutation_sym Hperm)) in Hp.
    apply in_map_iff in Hp. destruct Hp as (q & <- & _).
    unfold adjusted in *.
    destruct (Z.eqb_spec (index q) (k - 1)) as [_|Hne];
      [discriminate | exact Hne].
Qed.

Lemma manual_adjustment_classifies_witness :
  exists pages,
    adjust_entry [mkPage 0 true (ChInt 0) 0; mkPage 1 true (ChInt 0) 0]
      ("2"%string, (JInt 3, 4)) = Ok pages
    /\ In (mkPage (2 - 1) false (ChInt 3) 4)
         (filter (fun p => negb (failed p)) (_rearrange_page_list pages))
    /\ Forall (fun p => index p <> 2 - 1)
         (filter failed (_rearrange_page_list pages)).
Proof.
  apply (@manual_adjustment_classifies
           [mkPage 0 true (ChInt 0) 0; mkPage 1 true (ChInt 0) 0]
           "2"%string 2 (JInt 3) (ChInt 3) 4).
  - cbn. repeat (constructor; [cbn; intuition lia|]). constructor.
  - vm_compute. reflexivity.
  - reflexivity.
  - cbn. auto.
Defined.

End ClassifierExtra.

(** * Further properties of [make_new_pdf] *)

Module PipelineExtra.
Import Scrambler.

Lemma make_new_pdf_eq (doc : list page_text) (HAS_OCR : bool)
  (ocr : Z -> result string) (manual_json : option (list adjustment)) :
  make_new_pdf doc HAS_OCR ocr manual_json =
  (p2 <- classified_pages doc HAS_OCR ocr manual_json ;;
   _create_rearranged_pdf (_rearrange_page_list p2)).
Proof.
  unfold make_new_pdf, classified_pages.
  destruct (_create_initial_page_list doc) as [p0|e]; cbn [bind];
    [|reflexivity].
  destruct (_ocr_failed_pages HAS_OCR ocr p0) as [p1|e]; cbn [bind];
    reflexivity.
Qed.

Lemma texts_from_ascending (doc : list page_text) (i : Z) :
  StronglySorted Z.lt (map fst (texts_from i doc))
  /\ Forall (fun x => i <= x) (map fst (texts_from i doc)).
Proof.
  revert i. induction doc as [|[t|] doc IH]; intros i;
    cbn [texts_from map fst].
  - split; constructor.
  - destruct (IH (i + 1)) as [Hs Hf]. split.
    + constructor; [exact Hs|].
      eapply Forall_impl; [|exact Hf]. cbv beta. intros x Hx. lia.
    + constructor; [lia|].
      eapply Forall_impl; [|exact Hf]. cbv beta. intros x Hx. lia.
  - destruct (IH (i + 1)) as [Hs Hf]. split; [exact Hs|].
    eapply Forall_impl; [|exact Hf]. cbv beta. intros x Hx. lia.
Qed.

Lemma entries_index (l : list (Z * string)) (pages : list Page) :
  Forall2 entry_of l pages -> map index pages = map fst l.
Proof.
  induction 1 as [|it p l pages [Hi _] _ IH]; cbn [map].
  - reflexivity.
  - rewrite Hi, IH. reflexivity.
Qed.

Lemma manual_adjustments_index (adjustments : list adjustment)
  (init_pages : list Page) :
  map index (fst (_manual_page_adjustments adjustments init_pages))
  = map index init_pages.
Proof.
  revert init_pages. induction adjustments as [|a rest IH];
    intros init_pages; cbn [_manual_page_adjustments].
  - reflexivity.
  - destruct (adjust_entry init_pages a) as [pages|e] eqn:E;
      [|reflexivity].
    rewrite IH. apply (@ClassifierSpec.adjust_entry_index _ _ a E).
Qed.

(** The pages that go into the sort are the pages of the document that
    have a text string, in the order of the document. *)
Lemma classified_pages_index (doc : list page_text) (HAS_OCR : bool)
  (ocr : Z -> result string) (manual_json : option (list adjustment))
  (p2 : list Page) :
  classified_pages doc HAS_OCR ocr manual_json = Ok p2 ->
  map index p2 = map fst (texts_from 0 doc).
Proof.
  unfold classified_pages, _create_initial_page_list.
  destruct (create_loop 0 doc []) as [p0'|e] eqn:E0; cbn [bind];
    [|discriminate].
  destruct (ClassifierSpec.create_loop_spec _ _ _ E0) as (p0 & -> & Hf & _).
  cbn [app].
  destruct (_ocr_failed_pages HAS_OCR ocr p0) as [p1|e] eqn:E1; cbn [bind];
    [|discriminate].
  destruct (ClassifierSpec.ocr_failed_pages_spec _ _ _ E1) as (_ & Hi & _).
  rewrite <- (entries_index Hf), <- Hi.
  destruct manual_json as [adjustments|].
  - pose proof (manual_adjustments_index adjustments p1) as Hm.
    destruct (_manual_page_adjustments adjustments p1) as [p [e|]];
      [discriminate|].
    intros H. injection H as <-. exact Hm.
  - intros H. injection H as <-. reflexivity.
Qed.

Lemma create_rearranged_pdf_ok (sorted_pages : list Page) (order : list Z) :
  _create_rearranged_pdf sorted_pages = Ok order ->
  order = map index sorted_pages /\ sorted_pages <> [].
Proof.
  unfold _create_rearranged_pdf. destruct sorted_pages; [discriminate|].
  intros H. injection H as <-. split; [reflexivity | discriminate].
Qed.

(** X16: when [make_new_pdf] ends without an exception, the new document
    holds the pages of the source document that have a text string, each
    once, and no other page; there is at least one. *)
Theorem make_new_pdf_pages (doc : list page_text) (HAS_OCR : bool)
  (ocr : Z -> result string) (manual_json : option (list adjustment))
  (order : list Z) :
  make_new_pdf doc HAS_OCR ocr manual_json = Ok order ->
  Permutation (map fst (texts_from 0 doc)) order
  /\ NoDup order /\ order <> [].
Proof.
  rewrite make_new_pdf_eq.
  destruct (classified_pages doc HAS_OCR ocr manual_json) as [p2|e] eqn:E;
    cbn [bind]; [|discriminate].
  pose proof (classified_pages_index _ _ _ _ E) as Hi.
  intros H. apply create_rearranged_pdf_ok in H. destruct H as [-> Hne].
  assert (Hp : Permutation (map fst (texts_from 0 doc))
                 (map index (_rearrange_page_list p2))).
  { rewrite <- Hi. apply Permutation_map, ScramblerSpec.rearrange_perm. }
  split; [exact Hp|]. split.
  - apply (Permutation_NoDup Hp).
    destruct (texts_from_ascending doc 0) as [Hs _].
    clear - Hs. induction Hs as [|x l Hs IH Hall]; constructor.
    + intros Hin. rewrite Forall_forall in Hall.
      specialize (Hall x Hin). lia.
    + exact IH.
  - destruct (_rearrange_page_list p2); [congruence | discriminate].
Qed.

Lemma make_new_pdf_pages_witness :
  Permutation
    (map fst (texts_from 0 [Text "2-1"; NotText; Text "x"; Text "1-1"]))
    [3; 0; 2]
  /\ NoDup [3; 0; 2] /\ [3; 0; 2] <> [].
Proof.
  apply (@make_new_pdf_pages [Text "2-1"; NotText; Text "x"; Text "1-1"]
           false (fun _ => Ok EmptyString) None [3; 0; 2]).
  vm_compute. reflexivity.
Defined.

Lemma create_loop_no_text (doc : list page_text) (i : Z)
  (init_pages : list Page) :
  texts_from i doc = [] -> create_loop i doc init_pages = Ok init_pages.
Proof.
  revert i. induction doc as [|[text|] doc IH]; intros i;
    cbn [texts_from create_loop].
  - reflexivity.
  - discriminate.
  - apply IH.
Qed.

(** X17: on a document in which no page has a text string, the empty
    document among them, [make_new_pdf] ends with [ValueError], with or
    without manual adjustments. *)
Theorem make_new_pdf_no_text (doc : list page_text) (HAS_OCR : bool)
  (ocr : Z -> result string) (manual_json : option (list adjustment)) :
  texts_from 0 doc = [] ->
  make_new_pdf doc HAS_OCR ocr manual_json = Raise ValueError.
Proof.
  intros Ht. unfold make_new_pdf, _create_initial_page_list.
  rewrite (@create_loop_no_text doc 0 [] Ht). cbn [bind].
  replace (_ocr_failed_pages HAS_OCR ocr []) with (Ok (@nil Page))
    by (destruct HAS_OCR; reflexivity).
  cbn [bind].
  destruct manual_json as [adjustments|]; [|reflexivity].
  pose proof (manual_adjustments_index adjustments []) as Hm.
  destruct (_manual_page_adjustments adjustments []) as [p o] eqn:Em.
  cbn [fst map] in Hm. destruct p as [|q p]; [|discriminate].
  destruct o as [e|]; cbn [bind]; [|reflexivity].
  f_equal. clear - Em. revert Em.
  generalize (@nil Page) at 1 as pages.
  induction adjustments as [|a rest IH]; intros pages;
    cbn [_manual_page_adjustments].
  - discriminate.
  - destruct (adjust_entry pages a) as [pages'|e'] eqn:E.
    + apply IH.
    + intros H. injection H as _ <-.
      apply (@ClassifierExtra.adjust_entry_raise pages a e' E).
Qed.

Lemma make_new_pdf_no_text_witness :
  make_new_pdf [NotText; NotText] true (fun _ => Ok "1-1"%string)
    (Some [("1"%string, (JInt 1, 1))])
  = Raise ValueError.
Proof. apply make_new_pdf_no_text. reflexivity. Defined.

(** X18: without manual adjustments [make_new_pdf] comes to the copying
    of the pages, with at least one page to copy, on a document of ASCII
    texts in which some page has a text string, when no last match in a
    page text has a run of more than 4300 digits, and the OCR modules are
    missing or the engine gives for every page an ASCII text of which the
    same holds: the [ValueError] of [_create_rearranged_pdf] is not
    raised. *)
Theorem make_new_pdf_succeeds (doc : list page_text) (HAS_OCR : bool)
  (ocr : Z -> result string) :
  page_texts doc <> [] ->
  Forall ascii_only (page_texts doc) ->
  Forall (readable true) (page_texts doc) ->
  (forall i text, ocr i = Ok text -> ascii_only text) ->
  (HAS_OCR = false
   \/ forall i, exists text, ocr i = Ok text /\ readable false text) ->
  exists order, make_new_pdf doc HAS_OCR ocr None = Ok order.
Proof.
  unfold page_texts. intros Ht _ Hr _ Hocr.
  unfold make_new_pdf, _create_initial_page_list.
  destruct (@ClassifierSpec.create_loop_total doc 0 [] Hr) as [p0' E0].
  rewrite E0.
  destruct (ClassifierSpec.create_loop_spec _ _ _ E0) as (p0 & -> & Hf & _).
  cbn [app bind].
  destruct (@ClassifierExtra.ocr_failed_pages_total HAS_OCR ocr p0)
    as [p1 E1].
  { destruct Hocr as [H | H]; [left; exact H | right].
    apply Forall_forall. intros p _ _. apply H. }
  rewrite E1. cbn [bind]. unfold _create_rearranged_pdf.
  destruct (ClassifierSpec.ocr_failed_pages_spec _ _ _ E1) as (_ & Hi & _).
  destruct (_rearrange_page_list p1) as [|q out] eqn:Eo.
  - exfalso. apply Ht.
    pose proof (ScramblerSpec.rearrange_perm p1) as Hp. rewrite Eo in Hp.
    apply Permutation_sym, Permutation_nil in Hp. subst p1.
    destruct p0; [|discriminate]. inversion Hf. reflexivity.
  - eexists. reflexivity.
Qed.

Lemma make_new_pdf_succeeds_witness :
  exists order,
    make_new_pdf [NotText; Text "no label"] true
      (fun _ => Ok "S -12"%string) None
    = Ok order.
Proof.
  apply make_new_pdf_succeeds.
  - discriminate.
  - repeat constructor.
  - repeat constructor.
  - intros i text H. injection H as <-. repeat constructor.
  - right. intros i. eexists. split; [reflexivity|].
    vm_compute. split; discriminate.
Defined.

(** X19: in the document that [make_new_pdf] makes, the pages that are
    still Unclassified after the three passes come last, in the order that
    they have in the source document, behind all Classified pages. *)
Theorem make_new_pdf_unclassified_last (doc : list page_text)
  (HAS_OCR : bool) (ocr : Z -> result string)
  (manual_json : option (list adjustment)) (p2 : list Page)
  (order : list Z) :
  classified_pages doc HAS_OCR ocr manual_json = Ok p2 ->
  make_new_pdf doc HAS_OCR ocr manual_json = Ok order ->
  order
  = map index (filter (fun p => negb (failed p)) (_rearrange_page_list p2))
    ++ map index (filter failed p2)
  /\ StronglySorted Z.lt (map index (filter failed p2)).
Proof.
  intros E. rewrite make_new_pdf_eq, E. cbn [bind].
  pose proof (classified_pages_index _ _ _ _ E) as Hi.
  destruct (texts_from_ascending doc 0) as [Hs _]. rewrite <- Hi in Hs.
  intros H. apply create_rearranged_pdf_ok in H. destruct H as [-> _].
  split.
  - rewrite (@ScramblerExtra.unclassified_suffix p2 Hs) at 1.
    rewrite map_app. reflexivity.
  - clear - Hs. induction p2 as [|x l IH]; cbn [filter map].
    + constructor.
    + cbn [map] in Hs. inversion Hs as [|? ? Hs' Hall]; subst.
      destruct (failed x); [|apply IH, Hs'].
      cbn [map]. constructor; [apply IH, Hs'|].
      rewrite Forall_forall in *. intros y Hy. apply Hall.
      apply in_map_iff in Hy. destruct Hy as [p [<- Hp]].
      apply filter_In in Hp. apply in_map, Hp.
Qed.

Lemma make_new_pdf_unclassified_last_witness :
  [3; 0; 1; 2]
  = map index
      (filter (fun p => negb (failed p))
         (_rearrange_page_list
            [mkPage 0 false (ChInt 2) 1; mkPage 1 true (ChInt 0) 0;
             mkPage 2 true (ChInt 0) 0; mkPage 3 false (ChInt 1) 1]))
    ++ map index
         (filter failed
            [mkPage 0 false (ChInt 2) 1; mkPage 1 true (ChInt 0) 0;
             mkPage 2 true (ChInt 0) 0; mkPage 3 false (ChInt 1) 1])
  /\ StronglySorted Z.lt
       (map index
          (filter failed
             [mkPage 0 false (ChInt 2) 1; mkPage 1 true (ChInt 0) 0;
              mkPage 2 true (ChInt 0) 0; mkPage 3 false (ChInt 1) 1])).
Proof.
  apply (@make_new_pdf_unclassified_last
           [Text "2-1"; Text "x"; Text "y"; Text "1-1"]
           false (fun _ => Ok EmptyString) None).
  - vm_compute. reflexivity.
  - vm_compute. reflexivity.
Defined.

End PipelineExtra.
